(** * Sahar-e-Nau: a shallow embedding of [music.py]

    The program builds a score out of generated fragments (drone, alaap,
    fracture texture, rock riff, Keherwa cycle, synthesis melody), using
    the notation library music21 for its objects.  The development
    embeds the functions of [music.py] together with the part of the
    library's object model that they touch:

    - beat quantities (offsets, quarter lengths) are rationals [Q].  The
      library normalises every offset and quarter length it stores with
      [opFrac], which is [Qred] here; the values the program computes
      itself are multiples of 1/2, held exactly by a binary64 float
      below 2^53, and are modelled by plain [Q] arithmetic;
    - a stream (Measure, Part, Score) is the list of its (offset,
      element) pairs in the library's sorted order;
    - exceptions are an error result, the process-wide pseudorandom
      generator an explicit state threaded through every generator. *)

From Stdlib Require Import ZArith QArith Qround List String Ascii Bool Lia Lqa.
From Stdlib Require Import DecimalString Permutation.
Import ListNotations.

Set Implicit Arguments.

(* ================================================================== *)
(** ** Exceptions *)

Inductive exception : Type :=
| PitchException      (* an invalid note name *)
| IntervalException   (* an invalid interval name *)
| KeyError            (* a failed dict lookup *)
| IndexError          (* a sequence index out of range *)
| ValueError          (* an argument of the wrong shape *)
| Exhausted.          (* the iteration budget of a [while] loop ran out *)

Inductive result (A : Type) : Type :=
| Ok (a : A)
| Raise (e : exception).

Arguments Ok {A} a.
Arguments Raise {A} e.

Module Res.
Definition bind {A B} (c : result A) (k : A -> result B) : result B :=
  match c with
  | Ok a => k a
  | Raise e => Raise e
  end.

Fixpoint mapM {A B} (f : A -> result B) (l : list A) : result (list B) :=
  match l with
  | [] => Ok []
  | a :: l' =>
      bind (f a) (fun b => bind (mapM f l') (fun bs => Ok (b :: bs)))
  end.
End Res.

Declare Scope res_scope.
Delimit Scope res_scope with res.
Notation "x <- c ;; k" := (Res.bind c (fun x => k))
  (at level 61, c at next level, right associativity) : res_scope.

(* ================================================================== *)
(** ** Pitches (music21 [pitch.Pitch]) *)

Inductive StepName : Type := StepC | StepD | StepE | StepF | StepG | StepA | StepB.

(** [alter] is the accidental in semitones, [octave] is [None] for a
    name written without octave, [microtone] is a detuning in cents. *)
Record Pitch : Type := mkPitch {
  step : StepName;
  alter : Z;
  octave : option Z;
  microtone : Z
}.

Definition stepNum (s : StepName) : Z :=
  match s with
  | StepC => 0 | StepD => 1 | StepE => 2 | StepF => 3
  | StepG => 4 | StepA => 5 | StepB => 6
  end.

Definition stepRef (s : StepName) : Z :=
  match s with
  | StepC => 0 | StepD => 2 | StepE => 4 | StepF => 5
  | StepG => 7 | StepA => 9 | StepB => 11
  end.

Definition step_of_num (n : Z) : StepName :=
  match n with
  | 0 => StepC | 1 => StepD | 2 => StepE | 3 => StepF
  | 4 => StepG | 5 => StepA | _ => StepB
  end%Z.

Definition implicitOctave (p : Pitch) : Z :=
  match octave p with Some o => o | None => 4%Z end.

(** Pitch space without the microtone: MIDI numbering, C4 = 60. *)
Definition semitones (p : Pitch) : Z :=
  (12 * (implicitOctave p + 1) + stepRef (step p) + alter p)%Z.

(** [Pitch.ps]: pitch space, the microtone counted in hundredths. *)
Definition ps (p : Pitch) : Q :=
  inject_Z (semitones p) + (microtone p # 100).

Definition diatonicNoteNum (p : Pitch) : Z :=
  (stepNum (step p) + 1 + 7 * implicitOctave p)%Z.

(** Setting [Pitch.ps] to a whole number: the library spells the five
    black keys C#, E-, F#, G#, B-. *)
Definition Pitch_of_ps (n : Z) : Pitch :=
  let pc := (n mod 12)%Z in
  let o := Some (n / 12 - 1)%Z in
  match pc with
  | 0 => mkPitch StepC 0 o 0
  | 1 => mkPitch StepC 1 o 0
  | 2 => mkPitch StepD 0 o 0
  | 3 => mkPitch StepE (-1) o 0
  | 4 => mkPitch StepE 0 o 0
  | 5 => mkPitch StepF 0 o 0
  | 6 => mkPitch StepF 1 o 0
  | 7 => mkPitch StepG 0 o 0
  | 8 => mkPitch StepG 1 o 0
  | 9 => mkPitch StepA 0 o 0
  | 10 => mkPitch StepB (-1) o 0
  | _ => mkPitch StepB 0 o 0
  end%Z.

(** *** Note names

    A name is a step letter, then sharps ([#]) or flats ([-] or [b]),
    at most four of one kind, then an optional octave in decimal
    digits.  Quarter-tone accidentals are not covered: such a name is
    rejected here. *)

Definition step_of_ascii (c : ascii) : option StepName :=
  if (Ascii.eqb c "C" || Ascii.eqb c "c")%char then Some StepC
  else if (Ascii.eqb c "D" || Ascii.eqb c "d")%char then Some StepD
  else if (Ascii.eqb c "E" || Ascii.eqb c "e")%char then Some StepE
  else if (Ascii.eqb c "F" || Ascii.eqb c "f")%char then Some StepF
  else if (Ascii.eqb c "G" || Ascii.eqb c "g")%char then Some StepG
  else if (Ascii.eqb c "A" || Ascii.eqb c "a")%char then Some StepA
  else if (Ascii.eqb c "B" || Ascii.eqb c "b")%char then Some StepB
  else None.

Definition is_sharp (c : ascii) : bool := Ascii.eqb c "#".
Definition is_flat (c : ascii) : bool := (Ascii.eqb c "-" || Ascii.eqb c "b")%char.

(** Splits the text after the step letter into a run of accidental
    signs of the kind [sign] and the remainder. *)
Fixpoint take_signs (sign : ascii -> bool) (s : string) : Z * string :=
  match s with
  | String c s' =>
      if sign c then let '(n, r) := take_signs sign s' in ((n + 1)%Z, r)
      else (0%Z, s)
  | EmptyString => (0%Z, EmptyString)
  end.

Definition parse_octave (s : string) : result (option Z) :=
  match s with
  | EmptyString => Ok None
  | _ =>
      match NilEmpty.uint_of_string s with
      | Some d => Ok (Some (Z.of_N (N.of_uint d)))
      | None => Raise PitchException
      end
  end.

Definition Pitch_of_name (name : string) : result Pitch :=
  match name with
  | EmptyString => Raise PitchException
  | String c rest =>
      match step_of_ascii c with
      | None => Raise PitchException
      | Some st =>
          let '(sharps, r1) := take_signs is_sharp rest in
          let '(flats, r2) := take_signs is_flat r1 in
          if ((0 <? sharps) && (0 <? flats))%Z then Raise PitchException
          else if (4 <? sharps + flats)%Z then Raise PitchException
          else
            (o <- parse_octave r2 ;;
             Ok (mkPitch st (sharps - flats) o 0))%res
      end
  end.

Definition string_of_step (s : StepName) : string :=
  match s with
  | StepC => "C" | StepD => "D" | StepE => "E" | StepF => "F"
  | StepG => "G" | StepA => "A" | StepB => "B"
  end%string.

Fixpoint repeat_string (c : string) (n : nat) : string :=
  match n with
  | O => EmptyString
  | S n' => (c ++ repeat_string c n')%string
  end.

Definition string_of_alter (a : Z) : string :=
  if (0 <=? a)%Z then repeat_string "#" (Z.to_nat a)
  else repeat_string "-" (Z.to_nat (- a)).

Definition string_of_octave (o : option Z) : string :=
  match o with
  | None => EmptyString
  | Some z => NilZero.string_of_int (Z.to_int z)
  end.

(** [Pitch.nameWithOctave]: step, accidental and octave; the microtone
    is not part of the name. *)
Definition nameWithOctave (p : Pitch) : string :=
  (string_of_step (step p) ++ string_of_alter (alter p)
     ++ string_of_octave (octave p))%string.

(** *** Intervals and transposition *)

(** An interval name resolves to its staff distance and its size in
    semitones. *)
Definition interval_table : list (string * (Z * Z)) :=
  [ ("P1", (0, 0)); ("m2", (1, 1)); ("M2", (1, 2)); ("m3", (2, 3));
    ("M3", (2, 4)); ("P4", (3, 5)); ("A4", (3, 6)); ("d5", (4, 6));
    ("P5", (4, 7)); ("m6", (5, 8)); ("M6", (5, 9)); ("m7", (6, 10));
    ("M7", (6, 11)); ("P8", (7, 12)) ]%string%Z.

Fixpoint lookup {V : Type} (k : string) (d : list (string * V)) : option V :=
  match d with
  | [] => None
  | (k', v) :: d' => if String.eqb k k' then Some v else lookup k d'
  end.

Definition Interval_of_name (name : string) : result (Z * Z) :=
  match lookup name interval_table with
  | Some i => Ok i
  | None => Raise IntervalException
  end.

Definition maxAccidental : Z := 4.

(** [Interval.transposePitch]: move the staff position by the generic
    distance, then fix the accidental so that the chromatic size is
    right; a fix beyond [maxAccidental] respells the pitch from its
    pitch space.  Used on pitches built from names, whose microtone is
    0; the result carries no microtone. *)
Definition transposePitch (i : Z * Z) (p : Pitch) : Pitch :=
  let '(staffDistance, chromatic) := i in
  let newDiatonicNumber := (diatonicNoteNum p + staffDistance)%Z in
  let newStep := step_of_num ((newDiatonicNumber - 1) mod 7) in
  let newOctave := ((newDiatonicNumber - 1) / 7)%Z in
  let pitch2 := mkPitch newStep 0 (Some newOctave) 0 in
  let halfStepsToFix := (chromatic - (semitones pitch2 - semitones p))%Z in
  let pitch2 :=
    if (maxAccidental <? Z.abs halfStepsToFix)%Z
    then Pitch_of_ps (semitones pitch2 + halfStepsToFix)
    else mkPitch newStep halfStepsToFix (Some newOctave) 0 in
  match octave p with
  | None => mkPitch (step pitch2) (alter pitch2) None (microtone pitch2)
  | Some _ => pitch2
  end.

Definition transpose (int_str : string) (p : Pitch) : result Pitch :=
  (i <- Interval_of_name int_str ;; Ok (transposePitch i p))%res.

Definition set_microtone (p : Pitch) (cents : Z) : Pitch :=
  mkPitch (step p) (alter p) (octave p) cents.

(* ================================================================== *)
(** ** Section 3 of the program: the Yaman scale *)

Definition intervals : list string := ["M2"; "M3"; "A4"; "P5"; "M6"; "M7"]%string.

Definition get_yaman_scale (root_note : string) : result (list Pitch) :=
  (tonic <- Pitch_of_name root_note ;;
   rest <- Res.mapM
     (fun int_str =>
        p <- transpose int_str tonic ;;
        Ok (if String.eqb int_str "A4" then set_microtone p 10 else p))
     intervals ;;
   Ok (tonic :: rest))%res.

(* ================================================================== *)
(** ** Events: notes and chords *)

Inductive Articulation : Type := StrongAccent.

(** [duration.Tuplet(actual, normal)]: [actual] notes in the time of
    [normal]. *)
Record Tuplet : Type := mkTuplet {
  numberNotesActual : Z;
  numberNotesNormal : Z
}.

Record Note : Type := mkNote {
  pitch : Pitch;
  note_quarterLength : Q;
  velocity : option Z;
  articulations : list Articulation;
  note_tuplets : list Tuplet
}.

Record Chord : Type := mkChord {
  notes : list Note;
  chord_quarterLength : Q;
  chord_tuplets : list Tuplet
}.

Inductive GeneralNote : Type :=
| ANote (n : Note)
| AChord (c : Chord).

(** A fresh note lasts one quarter, has no velocity, no articulation
    and no tuplet. *)
Definition Note_of_pitch (p : Pitch) : Note := mkNote p 1 None [] [].

Definition Note_of_name (name : string) : result Note :=
  (p <- Pitch_of_name name ;; Ok (Note_of_pitch p))%res.

Definition Note_of_midi (n : Z) : Note := Note_of_pitch (Pitch_of_ps n).

(** A chord built from notes takes the duration of its first note. *)
Definition Chord_of_notes (ns : list Note) : Chord :=
  mkChord ns (match ns with n :: _ => note_quarterLength n | [] => 1 end) [].

Definition Chord_of_names (names : list string) : result Chord :=
  (ns <- Res.mapM Note_of_name names ;; Ok (Chord_of_notes ns))%res.

Definition Chord_of_midi (vals : list Z) : Chord :=
  Chord_of_notes (map Note_of_midi vals).

(** Assignments to attributes.  The library stores a quarter length
    through [opFrac], i.e. in lowest terms. *)
Definition set_note_quarterLength (n : Note) (ql : Q) : Note :=
  mkNote (pitch n) (Qred ql) (velocity n) (articulations n) (note_tuplets n).

Definition set_velocity (n : Note) (v : Z) : Note :=
  mkNote (pitch n) (note_quarterLength n) (Some v) (articulations n) (note_tuplets n).

Definition append_articulation (n : Note) (a : Articulation) : Note :=
  mkNote (pitch n) (note_quarterLength n) (velocity n) (articulations n ++ [a])
         (note_tuplets n).

Definition set_chord_quarterLength (c : Chord) (ql : Q) : Chord :=
  mkChord (notes c) (Qred ql) (chord_tuplets c).

Definition set_quarterLength (g : GeneralNote) (ql : Q) : GeneralNote :=
  match g with
  | ANote n => ANote (set_note_quarterLength n ql)
  | AChord c => AChord (set_chord_quarterLength c ql)
  end.

(** [n.duration.tuplets = ts]: replaces the tuplets; the quarter length
    set before stays. *)
Definition set_tuplets (g : GeneralNote) (ts : list Tuplet) : GeneralNote :=
  match g with
  | ANote n =>
      ANote (mkNote (pitch n) (note_quarterLength n) (velocity n)
                    (articulations n) ts)
  | AChord c => AChord (mkChord (notes c) (chord_quarterLength c) ts)
  end.

Definition quarterLength (g : GeneralNote) : Q :=
  match g with
  | ANote n => note_quarterLength n
  | AChord c => chord_quarterLength c
  end.

Definition tuplets (g : GeneralNote) : list Tuplet :=
  match g with
  | ANote n => note_tuplets n
  | AChord c => chord_tuplets c
  end.

Definition pitches (g : GeneralNote) : list Pitch :=
  match g with
  | ANote n => [pitch n]
  | AChord c => map pitch (notes c)
  end.

(** The loudness values an event carries, one per sounding pitch. *)
Definition velocities (g : GeneralNote) : list (option Z) :=
  match g with
  | ANote n => [velocity n]
  | AChord c => map velocity (notes c)
  end.

(* ================================================================== *)
(** ** Streams (music21 [stream.Stream])

    A stream holds (offset, element) pairs sorted by offset, then by
    the class sort order of the element, then by insertion order. *)

Definition Qltb (x y : Q) : bool := negb (Qle_bool y x).

Definition Qmax' (x y : Q) : Q := if Qle_bool x y then y else x.

Section Stream.
Variable E : Type.
Variable classSortOrder : E -> Z.
Variable duration : E -> Q.

(** [sortsBefore x y]: the sort key of [x] is at most that of [y]. *)
Definition sortsBefore (x y : Q * E) : bool :=
  if Qeq_bool (fst x) (fst y)
  then (classSortOrder (snd x) <=? classSortOrder (snd y))%Z
  else Qle_bool (fst x) (fst y).

(** The new pair goes behind every pair that sorts before it. *)
Fixpoint place (x : Q * E) (s : list (Q * E)) : list (Q * E) :=
  match s with
  | [] => [x]
  | y :: s' => if sortsBefore y x then y :: place x s' else x :: s
  end.

(** [Stream.insert(offset, e)] *)
Definition insert (offset : Q) (e : E) (s : list (Q * E)) : list (Q * E) :=
  place (Qred offset, e) s.

(** [Stream.highestTime]: the latest end of an element. *)
Definition highestTime (s : list (Q * E)) : Q :=
  fold_left (fun acc x => Qmax' acc (Qred (fst x + duration (snd x)))) s 0.

(** [Stream.append(e)]: insert at the end of the stream. *)
Definition append (e : E) (s : list (Q * E)) : list (Q * E) :=
  insert (highestTime s) e s.
End Stream.

Inductive Instrument : Type :=
| Sitar | Violoncello | ElectricGuitar | UnpitchedPercussion.

Record Measure : Type := mkMeasure {
  timeSignature : option string;
  measure_elements : list (Q * GeneralNote)
}.

Definition note_sortOrder (_ : GeneralNote) : Z := 20.

Definition Measure_append (g : GeneralNote) (m : Measure) : Measure :=
  mkMeasure (timeSignature m)
            (append note_sortOrder quarterLength g (measure_elements m)).

Inductive PartElement : Type :=
| PInstrument (i : Instrument)
| PNote (g : GeneralNote)
| PMeasure (m : Measure).

Definition part_sortOrder (e : PartElement) : Z :=
  match e with
  | PInstrument _ => -25
  | PNote g => note_sortOrder g
  | PMeasure _ => -20
  end.

Definition part_duration (e : PartElement) : Q :=
  match e with
  | PInstrument _ => 0
  | PNote g => quarterLength g
  | PMeasure m => highestTime quarterLength (measure_elements m)
  end.

Record Part : Type := mkPart {
  part_id : option string;
  part_elements : list (Q * PartElement)
}.

Definition new_Part : Part := mkPart None [].

Definition set_id (p : Part) (i : string) : Part :=
  mkPart (Some i) (part_elements p).

Definition Part_insert (offset : Q) (e : PartElement) (p : Part) : Part :=
  mkPart (part_id p) (insert part_sortOrder offset e (part_elements p)).

Definition Part_append (e : PartElement) (p : Part) : Part :=
  mkPart (part_id p) (append part_sortOrder part_duration e (part_elements p)).

(** [part.recurse().notes]: the notes and chords of the part and of
    its measures in document order, each with its offset in the stream
    that holds it. *)
Definition recurse_notes (p : Part) : list (Q * GeneralNote) :=
  flat_map (fun x =>
              match snd x with
              | PInstrument _ => []
              | PNote g => [(fst x, g)]
              | PMeasure m => measure_elements m
              end) (part_elements p).

Record Metadata : Type := mkMetadata {
  title : string;
  composer : string
}.

Inductive ScoreElement : Type :=
| SMetronomeMark (number : Z)
| SPart (p : Part).

Definition score_sortOrder (e : ScoreElement) : Z :=
  match e with
  | SMetronomeMark _ => 1
  | SPart _ => -20
  end.

Record Score : Type := mkScore {
  metadata : option Metadata;
  score_elements : list (Q * ScoreElement)
}.

Definition Score_insert (offset : Q) (e : ScoreElement) (s : Score) : Score :=
  mkScore (metadata s) (insert score_sortOrder offset e (score_elements s)).

(** The tempo markers of a score with their offsets. *)
Definition tempo_marks (s : Score) : list (Q * Z) :=
  flat_map (fun x =>
              match snd x with
              | SMetronomeMark n => [(fst x, n)]
              | SPart _ => []
              end) (score_elements s).

Definition parts (s : Score) : list Part :=
  flat_map (fun x =>
              match snd x with
              | SMetronomeMark _ => []
              | SPart p => [p]
              end) (score_elements s).

(** [score.recurse().notes]: every note and chord of every voice. *)
Definition score_notes (s : Score) : list GeneralNote :=
  flat_map (fun p => map snd (recurse_notes p)) (parts s).

(* ================================================================== *)
(** ** The pseudorandom generator (Python's [random] module)

    The generator is process-wide state.  Its two primitives are
    [random()], a number in the unit interval, and [_randbelow(n)], an
    index below [n]; both advance the state. *)

Class RandomSource (rng : Type) : Type := {
  random : rng -> Q * rng;
  randbelow : nat -> rng -> nat * rng;
  randbelow_lt : forall n g, (0 < n)%nat -> (fst (randbelow n g) < n)%nat
}.

(** A linear congruential generator, to run the generators on. *)
Definition lcg_next (g : N) : N := ((1103515245 * g + 12345) mod 2147483648)%N.

#[export, refine] Instance lcg : RandomSource N := {|
  random := fun g => (Z.of_N (g / 65536 mod 1000) # 1000, lcg_next g);
  randbelow := fun n g => (N.to_nat (g / 65536) mod n, lcg_next g)%nat
|}.
Proof.
  intros n g Hn. cbn [fst]. apply Nat.mod_upper_bound. lia.
Defined.

Section Generators.
Context {rng : Type} {RS : RandomSource rng}.

(** Computations that may raise and may draw random numbers. *)
Definition M (A : Type) : Type := rng -> result (A * rng).

Definition ret {A} (a : A) : M A := fun g => Ok (a, g).

Definition bind {A B} (c : M A) (k : A -> M B) : M B :=
  fun g =>
    match c g with
    | Ok (a, g') => k a g'
    | Raise e => Raise e
    end.

Definition raise {A} (e : exception) : M A := fun _ => Raise e.

Definition lift {A} (c : result A) : M A :=
  fun g =>
    match c with
    | Ok a => Ok (a, g)
    | Raise e => Raise e
    end.

(** A [for] loop over [l] that updates the loop state [s]. *)
Fixpoint foldM {A S} (body : A -> S -> M S) (l : list A) (s : S) : M S :=
  match l with
  | [] => ret s
  | a :: l' => bind (body a s) (foldM body l')
  end.

Declare Scope m_scope.
Delimit Scope m_scope with m.
Notation "x <- c ;; k" := (bind c (fun x => k))
  (at level 61, c at next level, right associativity) : m_scope.
Local Open Scope m_scope.

(** [range(n)] *)
Definition range (n : nat) : list Z := map Z.of_nat (seq 0 n).

(** *** [random.choice] and [random.choices] *)

(** [random.choice(seq)]: [seq[_randbelow(len(seq))]]. *)
Definition random_choice {A} (sq : list A) : M A :=
  fun g =>
    match sq with
    | [] => Raise IndexError
    | _ =>
        let '(i, g') := randbelow (List.length sq) g in
        match nth_error sq i with
        | Some x => Ok (x, g')
        | None => Raise IndexError
        end
    end.

(** [itertools.accumulate]: running sums. *)
Fixpoint accumulate_from (acc : Q) (l : list Q) : list Q :=
  match l with
  | [] => []
  | w :: l' => (acc + w) :: accumulate_from (acc + w) l'
  end.

Definition accumulate (l : list Q) : list Q := accumulate_from 0 l.

(** [bisect.bisect_right(a, x, lo, hi)]: binary search; [fuel]
    bounds the halvings and [hi - lo] is enough. *)
Fixpoint bisect_loop (fuel : nat) (a : list Q) (x : Q) (lo hi : nat) : nat :=
  match fuel with
  | O => lo
  | S fuel' =>
      if (lo <? hi)%nat then
        let mid := ((lo + hi) / 2)%nat in
        if Qltb x (nth mid a 0) then bisect_loop fuel' a x lo mid
        else bisect_loop fuel' a x (mid + 1)%nat hi
      else lo
  end.

Definition bisect (a : list Q) (x : Q) (lo hi : nat) : nat :=
  bisect_loop (hi - lo) a x lo hi.

(** [random.choices(population, weights=weights, k=1)[0]].  The
    weights are exact rationals here. *)
Definition random_choices {A} (population : list A) (weights : list Q) : M A :=
  fun g =>
    let n := List.length population in
    let cum_weights := accumulate weights in
    if negb (List.length cum_weights =? n)%nat then Raise ValueError
    else
      match List.rev cum_weights with
      | [] => Raise IndexError
      | total :: _ =>
          if Qle_bool total 0 then Raise ValueError
          else
            let hi := (n - 1)%nat in
            let '(u, g') := random g in
            match nth_error population (bisect cum_weights (u * total) 0 hi) with
            | Some x => Ok (x, g')
            | None => Raise IndexError
            end
      end.

(* ================================================================ *)
(** ** Section 5 of the program: instrumentation and percussion map *)

Definition tabla_map : list (string * list Z) :=
  [ ("Ge", [36]); ("Na", [37]); ("Tin", [45]); ("Dha", [36; 37]);
    ("Dhin", [36; 45]); ("Ka", [44]); ("Ke", [44]) ]%string%Z.

Definition create_sitar_drone : M Part :=
  let sitar_drone := new_Part in
  let sitar_drone := Part_insert 0 (PInstrument Sitar) sitar_drone in
  drone_root <- lift (Note_of_name "D3") ;;
  let drone_root := set_velocity drone_root 30 in
  let drone_root := set_note_quarterLength drone_root 100 in
  drone_fifth <- lift (Note_of_name "A3") ;;
  let drone_fifth := set_velocity drone_fifth 30 in
  let drone_fifth := set_note_quarterLength drone_fifth 100 in
  let sitar_drone := Part_insert 0 (PNote (ANote drone_root)) sitar_drone in
  let sitar_drone := Part_insert 0 (PNote (ANote drone_fifth)) sitar_drone in
  ret sitar_drone.

(* ================================================================ *)
(** ** Section 6 of the program: movement construction *)

(** *** Movement I: the alaap *)

(** The [while] loop of [generate_alaap]; [fuel] bounds the number
    of iterations. *)
Fixpoint alaap_loop (fuel : nat) (scale_names : list string) (weights : list Q)
         (duration_quarters : Q) (current_offset : Q) (alaap_stream : Part)
  : M Part :=
  if Qltb current_offset duration_quarters then
    match fuel with
    | O => raise Exhausted
    | S fuel' =>
        p_str <- random_choices scale_names weights ;;
        n <- lift (Note_of_name p_str) ;;
        dur <- random_choice [1 # 2; 1; 3 # 2; 2] ;;
        let n := set_note_quarterLength n dur in
        let alaap_stream :=
          Part_insert current_offset (PNote (ANote n)) alaap_stream in
        alaap_loop fuel' scale_names weights duration_quarters
                   (current_offset + dur) alaap_stream
    end
  else ret alaap_stream.

Definition generate_alaap (fuel : nat) (duration_quarters : Q) : M Part :=
  let alaap_stream := new_Part in
  let alaap_stream := Part_insert 0 (PInstrument Sitar) alaap_stream in
  yaman_scale <- lift (get_yaman_scale "D4") ;;
  let scale_names := map nameWithOctave yaman_scale in
  let weights := [1 # 10; 1 # 10; 3 # 10; 1 # 10; 1 # 10; 1 # 10; 2 # 10] in
  let current_offset := 0 in
  alaap_loop fuel scale_names weights duration_quarters current_offset
             alaap_stream.

(** *** Movement II: the fracture *)

Definition generate_fracture_texture : M Part :=
  let fracture_stream := new_Part in
  let fracture_stream := Part_insert 0 (PInstrument Violoncello) fracture_stream in
  foldM (fun i fracture_stream =>
           n1 <- lift (Note_of_name "G3") ;;
           n2 <- lift (Note_of_name "G#3") ;;
           let n1 := set_note_quarterLength n1 1 in
           let n2 := set_note_quarterLength n2 1 in
           let sp := StrongAccent in
           let n1 := append_articulation n1 sp in
           let n2 := append_articulation n2 sp in
           let velocity := (60 + i * 3)%Z in
           let n1 := set_velocity n1 velocity in
           let n2 := set_velocity n2 velocity in
           let clash_chord := Chord_of_notes [n1; n2] in
           let clash_chord := set_chord_quarterLength clash_chord 2 in
           ret (Part_append (PNote (AChord clash_chord)) fracture_stream))
        (range 16) fracture_stream.

(** *** Movement III: the march *)

Definition make_power_chord (root_name : string) (duration : Q) : M Chord :=
  r <- lift (Note_of_name root_name) ;;
  p5 <- lift (transpose "P5" (pitch r)) ;;
  let fifth :=
    mkNote p5 (note_quarterLength r) (velocity r) (articulations r)
           (note_tuplets r) in
  let c := Chord_of_notes [r; fifth] in
  let c := set_chord_quarterLength c duration in
  ret c.

Definition generate_rock_riff : M Part :=
  let riff_stream := new_Part in
  let riff_stream := Part_insert 0 (PInstrument ElectricGuitar) riff_stream in
  foldM (fun _ riff_stream =>
           c1 <- make_power_chord "D3" 4 ;;
           let riff_stream := Part_append (PNote (AChord c1)) riff_stream in
           c2 <- make_power_chord "A2" 4 ;;
           let riff_stream := Part_append (PNote (AChord c2)) riff_stream in
           c3 <- make_power_chord "G2" 4 ;;
           let riff_stream := Part_append (PNote (AChord c3)) riff_stream in
           gm_chord <- lift (Chord_of_names ["G2"; "Bb2"; "D3"]%string) ;;
           let gm_chord := set_chord_quarterLength gm_chord 4 in
           ret (Part_append (PNote (AChord gm_chord)) riff_stream))
        (range 4) riff_stream.

(** The two beat lengths are written [2/3.0] and [1/3.0]; the
    library stores them as the fractions 2/3 and 1/3. *)
Definition create_keherwa_cycle : M Measure :=
  let m := mkMeasure None [] in
  let m := mkMeasure (Some "4/4"%string) (measure_elements m) in
  let long_beat := 2 # 3 in
  let short_beat := 1 # 3 in
  let pattern_bols :=
    [ ("Dha", long_beat); ("Ge", short_beat);
      ("Na", long_beat); ("Tin", short_beat);
      ("Na", long_beat); ("Ka", short_beat);
      ("Dhin", long_beat); ("Na", short_beat) ]%string in
  foldM (fun (x : string * Q) m =>
           let '(bol, q_len) := x in
           midi_vals <- match lookup bol tabla_map with
                        | Some v => ret v
                        | None => raise KeyError
                        end ;;
           n <- (if (1 <? List.length midi_vals)%nat
                 then ret (AChord (Chord_of_midi midi_vals))
                 else match midi_vals with
                      | v :: _ => ret (ANote (Note_of_midi v))
                      | [] => raise IndexError
                      end) ;;
           let n := set_quarterLength n q_len in
           let t := mkTuplet 3 2 in
           let n := set_tuplets n [t] in
           ret (Measure_append n m))
        pattern_bols m.

(** *** Movement IV: the synthesis *)

Definition generate_synthesis_melody : M Part :=
  let synthesis_part := new_Part in
  let synthesis_part := Part_insert 0 (PInstrument Sitar) synthesis_part in
  yaman_scale <- lift (get_yaman_scale "D4") ;;
  let safe_note_names := map nameWithOctave yaman_scale in
  foldM (fun _ synthesis_part =>
           name <- random_choice safe_note_names ;;
           n <- lift (Note_of_name name) ;;
           let n := set_note_quarterLength n (1 # 2) in
           ret (Part_append (PNote (ANote n)) synthesis_part))
        (range (8 * 8)) synthesis_part.

(* ================================================================ *)
(** ** Main assembly *)

(** The timeline assembler: the loop
    [for element in fragment.recurse().notes:
         master.insert(start + element.offset, element)]. *)
Definition insert_notes (start : Q) (fragment : list (Q * GeneralNote))
           (master : Part) : Part :=
  fold_left (fun master x => Part_insert (start + fst x) (PNote (snd x)) master)
            fragment master.

(** The loop over the drum part: [for measure in drums_part] visits
    every element of the part in sorted order, and each visit
    advances the drum offset by one bar. *)
Definition insert_drums (drums_part : Part) (master_drums : Part)
           (current_drum_offset : Q) : Part * Q :=
  fold_left (fun (st : Part * Q) x =>
               let '(master_drums, current_drum_offset) := st in
               (Part_insert current_drum_offset (snd x) master_drums,
                current_drum_offset + 4))
            (part_elements drums_part) (master_drums, current_drum_offset).

Definition build_sahar_e_nau (fuel : nat) : M Score :=
  let score := mkScore None [] in
  let score :=
    mkScore (Some (mkMetadata "Sahar-e-Nau: Symphony of the Awakening"
                              "Faiz Fusion Project"))
            (score_elements score) in
  (* 1. Generate parts *)
  sitar_alaap <- generate_alaap fuel 32 ;;
  sitar_drone <- create_sitar_drone ;;
  fracture <- generate_fracture_texture ;;
  guitar_riff <- generate_rock_riff ;;
  let drums_part := new_Part in
  let drums_part := Part_insert 0 (PInstrument UnpitchedPercussion) drums_part in
  keherwa_bar <- create_keherwa_cycle ;;
  let drums_part :=
    fold_left (fun drums_part _ => Part_append (PMeasure keherwa_bar) drums_part)
              (range 16) drums_part in
  sitar_synthesis <- generate_synthesis_melody ;;
  (* 2. Add parts to the score with offsets *)
  let master_sitar := new_Part in
  let master_sitar := set_id master_sitar "Sitar" in
  let master_sitar := Part_insert 0 (PInstrument Sitar) master_sitar in
  let master_sitar := insert_notes 0 (recurse_notes sitar_alaap) master_sitar in
  let synthesis_start_offset := 32 + 32 + 64 in
  let master_sitar :=
    insert_notes synthesis_start_offset (recurse_notes sitar_synthesis)
                 master_sitar in
  let master_cello := new_Part in
  let master_cello := set_id master_cello "Cello" in
  let master_cello := Part_insert 0 (PInstrument Violoncello) master_cello in
  let master_cello := insert_notes 32 (recurse_notes fracture) master_cello in
  let master_guitar := new_Part in
  let master_guitar := set_id master_guitar "Guitar" in
  let master_guitar := Part_insert 0 (PInstrument ElectricGuitar) master_guitar in
  let master_guitar := insert_notes 64 (recurse_notes guitar_riff) master_guitar in
  let master_drums := new_Part in
  let master_drums := set_id master_drums "Drums" in
  let master_drums := Part_insert 0 (PInstrument UnpitchedPercussion) master_drums in
  let current_drum_offset := 64 in
  let '(master_drums, _) := insert_drums drums_part master_drums current_drum_offset in
  (* 3. Metric modulation *)
  let score := Score_insert 0 (SMetronomeMark 72) score in
  let score := Score_insert 64 (SMetronomeMark 108) score in
  let score := Score_insert 0 (SPart master_sitar) score in
  let score := Score_insert 0 (SPart master_cello) score in
  let score := Score_insert 0 (SPart master_guitar) score in
  let score := Score_insert 0 (SPart master_drums) score in
  ret score.

End Generators.

(* ================================================================== *)
(** ** Observations on fragments *)

(** The sum of the quarter lengths of a sequence of placed events. *)
Definition total_duration (l : list (Q * GeneralNote)) : Q :=
  fold_right (fun x acc => quarterLength (snd x) + acc) 0 l.

(** The sums of the adjacent pairs of a sequence, in lowest terms. *)
Fixpoint pair_sums (l : list Q) : list Q :=
  match l with
  | a :: b :: l' => Qred (a + b) :: pair_sums l'
  | _ => []
  end.

(** Python's [round] on a rational: to the nearest integer, a tie to
    the even one. *)
Definition round_half_even (q : Q) : Z :=
  let f := Qfloor q in
  let r := q - inject_Z f in
  if Qltb r (1 # 2) then f
  else if Qltb (1 # 2) r then (f + 1)%Z
  else if Z.even f then f else (f + 1)%Z.

Fixpoint all_some {A} (l : list (option A)) : option (list A) :=
  match l with
  | [] => Some []
  | Some a :: l' =>
      match all_some l' with Some r => Some (a :: r) | None => None end
  | None :: _ => None
  end.

(** The loudness of an event ([volume.velocity]): that of a note, or
    for a chord whose notes all carry one, the rounded mean. *)
Definition loudness (g : GeneralNote) : option Z :=
  match g with
  | ANote n => velocity n
  | AChord c =>
      match all_some (map velocity (notes c)) with
      | Some (v :: vs) =>
          Some (round_half_even
                  (fold_right Z.add 0%Z (v :: vs) # Pos.of_nat (List.length (v :: vs))))
      | _ => None
      end
  end.

Fixpoint nondecreasing (l : list Z) : bool :=
  match l with
  | a :: (b :: _) as l' => (a <=? b)%Z && nondecreasing l'
  | _ => true
  end.

(** The elements of a part with their offsets, by kind. *)
Definition instrument_offsets (p : Part) : list Q :=
  flat_map (fun x => match snd x with PInstrument _ => [fst x] | _ => [] end)
           (part_elements p).

Definition measure_offsets (p : Part) : list Q :=
  flat_map (fun x => match snd x with PMeasure _ => [fst x] | _ => [] end)
           (part_elements p).

Definition note_offsets (p : Part) : list Q := map fst (recurse_notes p).

(** [shift start fragment]: the fragment at the placement offset
    [start], as the assembler stores it. *)
Definition shift (start : Q) (fragment : list (Q * GeneralNote))
  : list (Q * PartElement) :=
  map (fun x => (Qred (start + fst x), PNote (snd x))) fragment.

(** [subseq l1 l2]: [l1] is [l2] with some elements left out, the
    others in their order. *)
Inductive subseq {A : Type} : list A -> list A -> Prop :=
| subseq_nil : subseq [] []
| subseq_skip : forall x l1 l2, subseq l1 l2 -> subseq l1 (x :: l2)
| subseq_keep : forall x l1 l2, subseq l1 l2 -> subseq (x :: l1) (x :: l2).

(** A fragment is in time order when its offsets never decrease. *)
Fixpoint time_ordered {E : Type} (s : list (Q * E)) : Prop :=
  match s with
  | [] => True
  | x :: s' => Forall (fun y => fst x <= fst y) s' /\ time_ordered s'
  end.

(** Iterations that suffice for a target duration: each one advances
    the cursor by at least half a beat. *)
Definition alaap_fuel (duration_quarters : Q) : nat :=
  Z.to_nat (Qceiling (2 * duration_quarters)).

(** The durations the alaap draws from. *)
Definition alaap_durations : list Q := [1 # 2; 1; 3 # 2; 2].

(** The events of a part laid end to end from [start]: each one
    begins where the one before it ends. *)
Fixpoint contiguous (start : Q) (l : list (Q * GeneralNote)) : Prop :=
  match l with
  | [] => True
  | x :: l' => fst x == start /\ contiguous (start + quarterLength (snd x)) l'
  end.

(** A single note of velocity 30, which is what the drone's two notes
    are. *)
Definition is_drone_note (g : GeneralNote) : bool :=
  match g with
  | ANote n => match velocity n with Some v => (v =? 30)%Z | None => false end
  | AChord _ => false
  end.

(** The names of the scale on D4, as [generate_alaap] computes them. *)
Definition yaman_D4_names : list string :=
  ["D4"; "E4"; "F#4"; "G#4"; "A4"; "B4"; "C#5"]%string.

Definition alaap_weights : list Q :=
  [1 # 10; 1 # 10; 3 # 10; 1 # 10; 1 # 10; 1 # 10; 2 # 10].

(** A note as one iteration of the alaap loop makes it: a pitch of the
    scale, one of the four durations, nothing else set. *)
Definition alaap_note (n : Note) : Prop :=
  exists name p d,
    In name yaman_D4_names /\ Pitch_of_name name = Ok p /\
    In d alaap_durations /\
    n = set_note_quarterLength (Note_of_pitch p) d.

(** The runs of the alaap loop: [alaap_trace D c l e] when the loop,
    entered with the cursor at [c], places the events [l] and leaves
    with the cursor at [e]. *)
Inductive alaap_trace (D : Q) : Q -> list (Q * GeneralNote) -> Q -> Prop :=
| trace_stop : forall c, ~ c < D -> alaap_trace D c [] c
| trace_step : forall c n l e,
    c < D -> alaap_note n ->
    alaap_trace D (c + note_quarterLength n) l e ->
    alaap_trace D c ((Qred c, ANote n) :: l) e.

(** A stream is sorted when every element sorts before those behind
    it. *)
Fixpoint stream_sorted {E : Type} (cso : E -> Z) (s : list (Q * E)) : Prop :=
  match s with
  | [] => True
  | x :: s' => Forall (fun y => sortsBefore cso x y = true) s' /\ stream_sorted cso s'
  end.

(** A part element that holds no drone note. *)
Definition no_drone_element (e : PartElement) : Prop :=
  match e with
  | PInstrument _ => True
  | PNote g => is_drone_note g = false
  | PMeasure m => Forall (fun x => is_drone_note (snd x) = false) (measure_elements m)
  end.

(** A part element as the melody generators make it: the instrument
    marker or a single note without velocity. *)
Definition plain_element (e : PartElement) : Prop :=
  match e with
  | PInstrument _ => True
  | PNote (ANote n) => velocity n = None
  | _ => False
  end.

(* ================================================================== *)
(** ** Section 3 of the program: the progression table *)

(** The module-level dict [chord_progression], built when the module
    is loaded: four chords given by the names of their notes. *)
Definition chord_progression : result (list (string * Chord)) :=
  (cI <- Chord_of_names ["D3"; "F#3"; "A3"]%string ;;
   cV <- Chord_of_names ["A2"; "C#3"; "E3"]%string ;;
   cIV <- Chord_of_names ["G2"; "B2"; "D3"]%string ;;
   civ <- Chord_of_names ["G2"; "Bb2"; "D3"]%string ;;
   Ok [("I", cI); ("V", cV); ("IV", cIV); ("iv", civ)]%string)%res.

(** The pitches of an event in semitones above its first pitch. *)
Definition intervals_from_root (g : GeneralNote) : list Z :=
  match pitches g with
  | [] => []
  | r :: _ => map (fun p => (semitones p - semitones r)%Z) (pitches g)
  end.

(** The slots the drum loop hands out: one every four beats from
    [start], one per element, whatever the element is and wherever it
    sat in its own part. *)
Fixpoint drum_slots (start : Q) (l : list (Q * PartElement))
  : list (Q * PartElement) :=
  match l with
  | [] => []
  | x :: l' => (Qred start, snd x) :: drum_slots (start + 4) l'
  end.

(* ================================================================== *)
(** * Properties *)

(** ** The scale generator *)

Section Scale.
Local Open Scope Z_scope.









End Scale.

(** ** The deterministic generators *)

Section Deterministic.
Context {rng : Type} {RS : RandomSource rng}.

(** C2.  From any state of the pseudorandom generator
    [create_keherwa_cycle] returns one measure of eight events whose
    quarter lengths alternate between 2/3 and 1/3, each adjacent pair
    summing to one beat and all of them to exactly 4 beats; every
    event carries the single tuplet 3-in-the-time-of-2. *)
Theorem keherwa_cycle_four_beats :
  forall g : rng,
    exists m,
      create_keherwa_cycle g = Ok (m, g) /\
      map (fun x => quarterLength (snd x)) (measure_elements m)
        = [2 # 3; 1 # 3; 2 # 3; 1 # 3; 2 # 3; 1 # 3; 2 # 3; 1 # 3] /\
      pair_sums (map (fun x => quarterLength (snd x)) (measure_elements m))
        = [1; 1; 1; 1] /\
      total_duration (measure_elements m) == 4 /\
      Qred (total_duration (measure_elements m)) = 4 /\
      map (fun x => tuplets (snd x)) (measure_elements m)
        = repeat [mkTuplet 3 2] 8.
Proof.
  intros g. eexists. split; [vm_compute; reflexivity|].
  repeat split; vm_compute; reflexivity.
Qed.

(** C6.  [generate_fracture_texture] returns exactly 16 events, each a
    chord of the two pitches G3 and G#3 lasting 2 quarters; the
    loudness of the [i]-th one is [60 + 3 * i] for both of its notes
    and for the chord, so the sequence starts at the floor 60, rises
    by 3 per step, never decreases, and ends at 105 with no cap
    applied. *)
Theorem fracture_texture_crescendo :
  forall g : rng,
    exists p vs,
      generate_fracture_texture g = Ok (p, g) /\
      vs = map (fun i => (60 + i * 3)%Z) (range 16) /\
      List.length (recurse_notes p) = 16%nat /\
      map (fun x => map nameWithOctave (pitches (snd x))) (recurse_notes p)
        = repeat ["G3"; "G#3"]%string 16 /\
      map (fun x => quarterLength (snd x)) (recurse_notes p) = repeat 2 16 /\
      map (fun x => loudness (snd x)) (recurse_notes p) = map Some vs /\
      map (fun x => velocities (snd x)) (recurse_notes p)
        = map (fun v => [Some v; Some v]) vs /\
      nondecreasing vs = true /\
      hd 0%Z vs = 60%Z /\
      last vs 0%Z = 105%Z.
Proof.
  intros g. do 2 eexists. split; [vm_compute; reflexivity|].
  split; [reflexivity|].
  repeat split; vm_compute; reflexivity.
Qed.

(** C9.  The three generators without random draws return the same
    fragment from any two states of the pseudorandom generator, and
    leave the state as they found it. *)
Theorem nonrandom_generators_deterministic :
  forall g1 g2 : rng,
    (exists p, generate_fracture_texture g1 = Ok (p, g1) /\
               generate_fracture_texture g2 = Ok (p, g2)) /\
    (exists p, generate_rock_riff g1 = Ok (p, g1) /\
               generate_rock_riff g2 = Ok (p, g2)) /\
    (exists m, create_keherwa_cycle g1 = Ok (m, g1) /\
               create_keherwa_cycle g2 = Ok (m, g2)).
Proof.
  intros g1 g2.
  repeat split; eexists; (split; [vm_compute; reflexivity|]);
    vm_compute; reflexivity.
Qed.

End Deterministic.

(** ** Streams *)

Unset Implicit Arguments.

Lemma Qltb_lt (x y : Q) : Qltb x y = true <-> x < y.
Proof.
  unfold Qltb. rewrite negb_true_iff.
  split.
  - intros H. apply Qnot_le_lt. intros Hle.
    apply Qle_bool_iff in Hle. congruence.
  - intros H. destruct (Qle_bool y x) eqn:E; [|reflexivity].
    apply Qle_bool_iff in E. lra.
Qed.

Lemma Qltb_nlt (x y : Q) : Qltb x y = false <-> ~ x < y.
Proof.
  rewrite <- Qltb_lt. destruct (Qltb x y); split; congruence.
Qed.

(** An element that sorts behind the whole stream goes to its end. *)
Lemma place_end (E : Type) (cso : E -> Z) (x : Q * E) (s : list (Q * E)) :
  Forall (fun y => sortsBefore cso y x = true) s ->
  place cso x s = s ++ [x].
Proof.
  induction 1 as [|y s Hy _ IH]; [reflexivity|].
  cbn [place app]. rewrite Hy, IH. reflexivity.
Qed.

Lemma note_sorts_last (y : Q * PartElement) (c : Q) (g : GeneralNote) :
  fst y <= c -> sortsBefore part_sortOrder y (Qred c, PNote g) = true.
Proof.
  intros H. unfold sortsBefore. cbn [fst snd].
  destruct (Qeq_bool (fst y) (Qred c)).
  - destruct (snd y); reflexivity.
  - apply Qle_bool_iff. rewrite Qred_correct. exact H.
Qed.

Lemma Part_insert_note_end (c : Q) (g : GeneralNote) (p : Part) :
  Forall (fun y => fst y <= c) (part_elements p) ->
  Part_insert c (PNote g) p
  = mkPart (part_id p) (part_elements p ++ [(Qred c, PNote g)]).
Proof.
  intros H. unfold Part_insert, insert. f_equal.
  apply place_end. eapply Forall_impl; [|exact H].
  intros y Hy. apply note_sorts_last. exact Hy.
Qed.

Lemma recurse_notes_app (i : option string) (s : list (Q * PartElement))
      (l : list (Q * GeneralNote)) :
  recurse_notes (mkPart i (s ++ map (fun x => (fst x, PNote (snd x))) l))
  = recurse_notes (mkPart i s) ++ l.
Proof.
  unfold recurse_notes. cbn [part_elements].
  rewrite flat_map_app. f_equal.
  induction l as [|[o g] l IH]; [reflexivity|].
  cbn [map flat_map fst snd app]. rewrite IH. reflexivity.
Qed.

(** ** The pseudorandom draws *)

Section Draws.
Context {rng : Type} {RS : RandomSource rng}.

Lemma bisect_loop_bounds (fuel : nat) (a : list Q) (x : Q) (lo hi : nat) :
  (lo <= hi)%nat ->
  (lo <= bisect_loop fuel a x lo hi <= hi)%nat.
Proof.
  revert lo hi. induction fuel as [|fuel IH]; intros lo hi Hle; cbn [bisect_loop].
  - lia.
  - destruct (lo <? hi)%nat eqn:Hlt; [|lia].
    apply Nat.ltb_lt in Hlt.
    assert (Hmid : (lo <= (lo + hi) / 2 < hi)%nat).
    { split.
      - apply Nat.div_le_lower_bound; lia.
      - apply Nat.Div0.div_lt_upper_bound; lia. }
    destruct (Qltb x (nth ((lo + hi) / 2) a 0)).
    + specialize (IH lo ((lo + hi) / 2)%nat ltac:(lia)). lia.
    + specialize (IH ((lo + hi) / 2 + 1)%nat hi ltac:(lia)). lia.
Qed.

(** The weighted draw of the alaap returns a name of the scale. *)
Lemma random_choices_scale (g : rng) :
  exists name g',
    random_choices yaman_D4_names alaap_weights g = Ok (name, g') /\
    In name yaman_D4_names.
Proof.
  unfold random_choices.
  change (negb (List.length (accumulate alaap_weights)
                =? List.length yaman_D4_names)%nat) with false.
  cbv iota.
  remember (accumulate alaap_weights) as cum eqn:Hcum.
  assert (Hrev : exists total tl, List.rev cum = total :: tl /\ Qle_bool total 0 = false).
  { subst cum. vm_compute. eauto. }
  destruct Hrev as (total & tl & -> & ->).
  destruct (random g) as [u g'].
  pose proof (bisect_loop_bounds (List.length yaman_D4_names - 1 - 0) cum (u * total)
                0 (List.length yaman_D4_names - 1) ltac:(lia)) as Hb.
  unfold bisect.
  destruct (nth_error yaman_D4_names
              (bisect_loop (List.length yaman_D4_names - 1 - 0) cum (u * total) 0
                           (List.length yaman_D4_names - 1))) as [name|] eqn:Hn.
  - exists name, g'. split; [reflexivity|]. eapply nth_error_In; eauto.
  - apply nth_error_None in Hn. cbn in Hn, Hb. lia.
Qed.

(** The uniform draw returns a member of a non-empty sequence. *)
Lemma random_choice_In (A : Type) (a : A) (sq : list A) (g : rng) :
  exists x g', random_choice (a :: sq) g = Ok (x, g') /\ In x (a :: sq).
Proof.
  unfold random_choice.
  pose proof (@randbelow_lt _ _ (List.length (a :: sq)) g ltac:(cbn; lia)) as Hlt.
  destruct (randbelow (List.length (a :: sq)) g) as [i g']. cbn [fst] in Hlt.
  destruct (nth_error (a :: sq) i) as [x|] eqn:Hx.
  - exists x, g'. split; [reflexivity|]. eapply nth_error_In; eauto.
  - apply nth_error_None in Hx. lia.
Qed.

Lemma scale_names_parse (name : string) :
  In name yaman_D4_names -> exists p, Pitch_of_name name = Ok p.
Proof.
  intros H. cbn in H.
  repeat (destruct H as [<-|H]; [eexists; reflexivity|]).
  contradiction.
Qed.

End Draws.

(** ** The alaap *)

Lemma alaap_fuel_pos (D c : Q) : c < D -> (1 <= alaap_fuel (D - c))%nat.
Proof.
  intros H. unfold alaap_fuel.
  pose proof (Qle_ceiling (2 * (D - c))) as Hc.
  assert (Hk : (0 < Qceiling (2 * (D - c)))%Z).
  { rewrite Zlt_Qlt. change (inject_Z 0) with 0. lra. }
  lia.
Qed.

Lemma alaap_fuel_step (D c d : Q) :
  1 # 2 <= d -> c < D ->
  (S (alaap_fuel (D - (c + d))) <= alaap_fuel (D - c))%nat.
Proof.
  intros Hd Hc. pose proof (alaap_fuel_pos D c Hc) as Hpos.
  unfold alaap_fuel in *.
  set (k := Qceiling (2 * (D - c))) in *.
  pose proof (Qle_ceiling (2 * (D - c))) as Hk. fold k in Hk.
  assert (Hle : (Qceiling (2 * (D - (c + d))) <= k - 1)%Z).
  { rewrite <- (Qceiling_Z (k - 1)). apply Qceiling_resp_le.
    replace (k - 1)%Z with (k + -1)%Z by lia.
    rewrite inject_Z_plus. change (inject_Z (-1)) with (-1 # 1). lra. }
  lia.
Qed.

Lemma alaap_durations_reduced (d : Q) :
  In d alaap_durations -> Qred d = d /\ 1 # 2 <= d /\ d <= 2.
Proof.
  intros H. cbn in H.
  repeat (destruct H as [<-|H]; [split; [reflexivity|lra]|]).
  contradiction.
Qed.

Lemma alaap_note_quarterLength (n : Note) :
  alaap_note n ->
  In (note_quarterLength n) alaap_durations /\
  1 # 2 <= note_quarterLength n /\ note_quarterLength n <= 2.
Proof.
  intros (name & p & d & _ & _ & Hd & ->).
  destruct (alaap_durations_reduced d Hd) as (Hred & Hlo & Hhi).
  cbn [set_note_quarterLength note_quarterLength]. rewrite Hred. auto.
Qed.

Lemma alaap_note_plain (n : Note) :
  alaap_note n -> velocity n = None.
Proof.
  intros (name & p & d & _ & _ & _ & ->). reflexivity.
Qed.

(** What a run of the loop leaves behind. *)
Lemma alaap_trace_props (D c e : Q) (l : list (Q * GeneralNote)) :
  alaap_trace D c l e ->
  e == c + total_duration l /\
  ~ e < D /\
  (l = [] \/ e < D + 2) /\
  contiguous c l /\
  Forall (fun x => fst x < D /\ In (quarterLength (snd x)) alaap_durations) l.
Proof.
  induction 1 as [c Hc|c n l e Hc Hn _ IH].
  - cbn. repeat split; auto; lra.
  - destruct IH as (He & Hstop & Hlast & Hcont & Hall).
    destruct (alaap_note_quarterLength n Hn) as (Hin & Hlo & Hhi).
    cbn [total_duration fold_right snd quarterLength contiguous fst].
    fold (total_duration l).
    repeat split.
    + lra.
    + exact Hstop.
    + right. destruct Hlast as [->|Hlt]; [|exact Hlt].
      cbn in He. lra.
    + apply Qred_correct.
    + exact Hcont.
    + constructor; [|exact Hall]. cbn [fst snd quarterLength].
      split; [rewrite Qred_correct; exact Hc|exact Hin].
Qed.

Lemma alaap_trace_notes (D c e : Q) (l : list (Q * GeneralNote)) :
  alaap_trace D c l e ->
  Forall (fun x => exists n, snd x = ANote n /\ alaap_note n) l.
Proof.
  induction 1 as [|c n l e Hc Hn _ IH]; constructor; [|exact IH].
  exists n. split; [reflexivity|exact Hn].
Qed.

Section Alaap.
Context {rng : Type} {RS : RandomSource rng}.

(** With fuel for the distance to the target, the loop returns, and
    what it has placed is a run of the loop. *)
Lemma alaap_loop_runs (fuel : nat) :
  forall (D c : Q) (part : Part) (g : rng),
    (alaap_fuel (D - c) <= fuel)%nat ->
    Forall (fun y => fst y <= c) (part_elements part) ->
    exists new e g',
      alaap_loop fuel yaman_D4_names alaap_weights D c part g
      = Ok (mkPart (part_id part)
                   (part_elements part
                      ++ map (fun x => (fst x, PNote (snd x))) new), g') /\
      alaap_trace D c new e /\
      (List.length new <= alaap_fuel (D - c))%nat.
Proof.
  induction fuel as [|fuel IH]; intros D c part g Hfuel Hsorted.
  - cbn [alaap_loop]. destruct (Qltb c D) eqn:Hlt.
    + apply Qltb_lt in Hlt. pose proof (alaap_fuel_pos D c Hlt). lia.
    + apply Qltb_nlt in Hlt. exists [], c, g.
      cbn [map]. rewrite app_nil_r. destruct part.
      repeat split; [constructor; exact Hlt | cbn; lia].
  - cbn [alaap_loop]. destruct (Qltb c D) eqn:Hlt.
    + apply Qltb_lt in Hlt. unfold bind at 1.
      destruct (random_choices_scale g) as (name & g1 & -> & Hname).
      destruct (scale_names_parse name Hname) as (p & Hp).
      unfold bind at 1, lift, Note_of_name. rewrite Hp. cbn [Res.bind].
      unfold bind at 1.
      destruct (random_choice_In Q (1 # 2) [1; 3 # 2; 2] g1) as (d & g2 & -> & Hd).
      change (In d alaap_durations) in Hd.
      destruct (alaap_durations_reduced d Hd) as (Hred & Hlo & Hhi).
      rewrite (Part_insert_note_end c _ part Hsorted).
      set (n := set_note_quarterLength (Note_of_pitch p) d).
      assert (Hn : alaap_note n) by (exists name, p, d; auto).
      assert (Hql : note_quarterLength n = d) by exact Hred.
      pose proof (alaap_fuel_step D c d Hlo Hlt) as Hstep.
      destruct (IH D (c + d)
                   (mkPart (part_id part) (part_elements part ++ [(Qred c, PNote (ANote n))]))
                   g2) as (new & e & g' & Hrun & Htrace & Hlen).
      { lia. }
      { cbn [part_elements]. apply Forall_app. split.
        - eapply Forall_impl; [|exact Hsorted]. cbn. intros y Hy. lra.
        - constructor; [|constructor]. cbn [fst]. rewrite Qred_correct. lra. }
      exists ((Qred c, ANote n) :: new), e, g'.
      rewrite Hrun. cbn [part_id part_elements map fst snd].
      rewrite <- app_assoc. cbn [app].
      repeat split.
      * constructor; [exact Hlt|exact Hn|]. rewrite Hql. exact Htrace.
      * cbn [List.length]. lia.
    + apply Qltb_nlt in Hlt. exists [], c, g.
      cbn [map]. rewrite app_nil_r. destruct part.
      repeat split; [constructor; exact Hlt | cbn; lia].
Qed.

Lemma generate_alaap_unfold (fuel : nat) (D : Q) (g : rng) :
  generate_alaap fuel D g
  = alaap_loop fuel yaman_D4_names alaap_weights D 0
               (mkPart None [(0, PInstrument Sitar)]) g.
Proof. reflexivity. Qed.

Lemma alaap_fuel_0 (D : Q) : alaap_fuel (D - 0) = alaap_fuel D.
Proof.
  unfold alaap_fuel. f_equal. apply Qceiling_comp. lra.
Qed.

(** With fuel for the target, [generate_alaap] returns the sitar
    marker followed by a run of the loop from cursor 0. *)
Lemma generate_alaap_runs (D : Q) (fuel : nat) (g : rng) :
  exists new e g',
    generate_alaap (alaap_fuel D + fuel) D g
    = Ok (mkPart None ((0, PInstrument Sitar)
                         :: map (fun x => (fst x, PNote (snd x))) new), g') /\
    recurse_notes (mkPart None ((0, PInstrument Sitar)
                         :: map (fun x => (fst x, PNote (snd x))) new)) = new /\
    alaap_trace D 0 new e /\
    (List.length new <= alaap_fuel D)%nat.
Proof.
  rewrite generate_alaap_unfold.
  destruct (alaap_loop_runs (alaap_fuel D + fuel) D 0
              (mkPart None [(0, PInstrument Sitar)]) g)
    as (new & e & g' & Hrun & Htrace & Hlen).
  { rewrite alaap_fuel_0. lia. }
  { constructor; [cbn; lra|constructor]. }
  exists new, e, g'. rewrite Hrun. rewrite alaap_fuel_0 in Hlen.
  repeat split; auto.
  exact (recurse_notes_app None [(0, PInstrument Sitar)] new).
Qed.

End Alaap.

Section AlaapClaims.
Context {rng : Type} {RS : RandomSource rng}.



(** C10.  For a target duration [D <= 0] the loop of [generate_alaap]
    is never entered, whatever the fuel: the part holds the sitar
    marker alone, no note event, and its total duration is 0; no
    random number is drawn. *)
Theorem alaap_nonpositive_empty :
  forall (D : Q) (fuel : nat) (g : rng),
    D <= 0 ->
    exists part,
      generate_alaap fuel D g = Ok (part, g) /\
      part_elements part = [(0, PInstrument Sitar)] /\
      recurse_notes part = [] /\
      total_duration (recurse_notes part) = 0.
Proof.
  intros D fuel g HD. rewrite generate_alaap_unfold.
  assert (Hlt : Qltb 0 D = false) by (apply Qltb_nlt; lra).
  exists (mkPart None [(0, PInstrument Sitar)]).
  destruct fuel; cbn [alaap_loop]; rewrite Hlt; repeat split.
Qed.

End AlaapClaims.

Lemma alaap_nonpositive_empty_witness :
  -1 <= 0 /\
  exists part,
    generate_alaap 0 (-1) 7%N = Ok (part, 7%N) /\
    part_elements part = [(0, PInstrument Sitar)] /\
    recurse_notes part = [] /\
    total_duration (recurse_notes part) = 0.
Proof.
  assert (H : -1 <= 0) by (unfold Qle; cbn; lia).
  split; [exact H|]. exact (alaap_nonpositive_empty (-1) 0 7%N H).
Defined.


(** ** The score builder *)

Lemma place_In (E : Type) (cso : E -> Z) (x y : Q * E) (s : list (Q * E)) :
  In y (place cso x s) <-> y = x \/ In y s.
Proof.
  induction s as [|z s IH]; cbn [place].
  - cbn. intuition congruence.
  - destruct (sortsBefore cso z x); cbn [In]; [rewrite IH|]; intuition congruence.
Qed.

Lemma place_Forall (E : Type) (cso : E -> Z) (P : Q * E -> Prop) (x : Q * E)
      (s : list (Q * E)) :
  P x -> Forall P s -> Forall P (place cso x s).
Proof.
  intros Hx Hs. apply Forall_forall. intros y Hy.
  apply place_In in Hy. destruct Hy as [->|Hy]; [exact Hx|].
  rewrite Forall_forall in Hs. auto.
Qed.

Lemma insert_notes_In (start : Q) (fragment : list (Q * GeneralNote)) :
  forall (master : Part) (y : Q * PartElement),
    In y (part_elements (insert_notes start fragment master)) <->
    In y (part_elements master) \/ In y (shift start fragment).
Proof.
  unfold insert_notes, shift.
  induction fragment as [|x fragment IH]; intros master y; cbn [fold_left map In].
  - tauto.
  - rewrite IH. unfold Part_insert, insert. cbn [part_elements fst snd].
    rewrite place_In. intuition congruence.
Qed.

Lemma recurse_notes_In (p : Part) (o : Q) (g : GeneralNote) :
  In (o, PNote g) (part_elements p) -> In (o, g) (recurse_notes p).
Proof.
  intros H. unfold recurse_notes. apply in_flat_map.
  exists (o, PNote g). split; [exact H|]. cbn. auto.
Qed.

Lemma recurse_notes_no_drone (p : Part) :
  Forall (fun y => no_drone_element (snd y)) (part_elements p) ->
  Forall (fun x => is_drone_note (snd x) = false) (recurse_notes p).
Proof.
  intros H. apply Forall_forall. intros x Hx.
  unfold recurse_notes in Hx. apply in_flat_map in Hx.
  destruct Hx as (y & Hy & Hx). rewrite Forall_forall in H.
  specialize (H y Hy). destruct (snd y) as [i|g|m]; cbn in *.
  - contradiction.
  - destruct Hx as [<-|[]]. exact H.
  - rewrite Forall_forall in H. auto.
Qed.

Lemma plain_no_drone (e : PartElement) : plain_element e -> no_drone_element e.
Proof.
  destruct e as [i|[n|c]|m]; cbn; try tauto.
  intros ->. reflexivity.
Qed.

Lemma recurse_notes_shift (i : option string) (e : Instrument) (start : Q)
      (fragment : list (Q * GeneralNote)) :
  map snd (recurse_notes (mkPart i ((0, PInstrument e) :: shift start fragment)))
  = map snd fragment.
Proof.
  unfold recurse_notes, shift. cbn [part_elements flat_map snd app].
  induction fragment as [|x l IH]; [reflexivity|].
  cbn [map flat_map snd fst app]. rewrite IH. reflexivity.
Qed.

Section Builder.
Context {rng : Type} {RS : RandomSource rng}.

Lemma bind_run (A B : Type) (c : M A) (k : A -> M B) (g g' : rng) (a : A) :
  c g = Ok (a, g') -> bind c k g = k a g'.
Proof. intros H. unfold bind. rewrite H. reflexivity. Qed.

Lemma build_runs (fuel : nat) (g g1 g2 : rng) (alaap synth : Part) :
  generate_alaap fuel 32 g = Ok (alaap, g1) ->
  generate_synthesis_melody g1 = Ok (synth, g2) ->
  exists drone fracture riff bar cello guitar drums,
    create_sitar_drone g1 = Ok (drone, g1) /\
    generate_fracture_texture g1 = Ok (fracture, g1) /\
    generate_rock_riff g1 = Ok (riff, g1) /\
    create_keherwa_cycle g1 = Ok (bar, g1) /\
    build_sahar_e_nau fuel g
    = Ok (mkScore
            (Some (mkMetadata "Sahar-e-Nau: Symphony of the Awakening"
                              "Faiz Fusion Project"))
            [ (0, SPart (insert_notes (32 + 32 + 64) (recurse_notes synth)
                           (insert_notes 0 (recurse_notes alaap)
                              (Part_insert 0 (PInstrument Sitar)
                                 (set_id new_Part "Sitar")))));
              (0, SPart cello); (0, SPart guitar); (0, SPart drums);
              (0, SMetronomeMark 72); (64, SMetronomeMark 108) ], g2) /\
    part_id cello = Some "Cello"%string /\
    part_elements cello
    = (0, PInstrument Violoncello) :: shift 32 (recurse_notes fracture) /\
    part_id guitar = Some "Guitar"%string /\
    part_elements guitar
    = (0, PInstrument ElectricGuitar) :: shift 64 (recurse_notes riff) /\
    part_id drums = Some "Drums"%string /\
    part_elements drums
    = (0, PInstrument UnpitchedPercussion)
        :: (64, PInstrument UnpitchedPercussion)
        :: map (fun k => (Qred (68 + 4 * inject_Z k), PMeasure bar)) (range 16) /\
    map (fun x => is_drone_note (snd x)) (recurse_notes drone) = [true; true] /\
    forallb (fun x => negb (is_drone_note (snd x)))
            (recurse_notes fracture ++ recurse_notes riff ++ measure_elements bar)
    = true /\
    note_offsets cello
    = [32; 34; 36; 38; 40; 42; 44; 46; 48; 50; 52; 54; 56; 58; 60; 62] /\
    note_offsets guitar
    = [64; 68; 72; 76; 80; 84; 88; 92; 96; 100; 104; 108; 112; 116; 120; 124] /\
    instrument_offsets drums = [0; 64] /\
    measure_offsets drums
    = [68; 72; 76; 80; 84; 88; 92; 96; 100; 104; 108; 112; 116; 120; 124; 128].
Proof.
  intros Halaap Hsynth.
  do 7 eexists.
  split; [vm_compute; reflexivity|].
  split; [vm_compute; reflexivity|].
  split; [vm_compute; reflexivity|].
  split; [vm_compute; reflexivity|].
  split.
  - unfold build_sahar_e_nau.
    erewrite bind_run by exact Halaap.
    erewrite bind_run by (vm_compute; reflexivity).
    erewrite bind_run by (vm_compute; reflexivity).
    erewrite bind_run by (vm_compute; reflexivity).
    erewrite bind_run by (vm_compute; reflexivity).
    erewrite bind_run by exact Hsynth.
    unfold ret. f_equal. f_equal.
    cbv zeta.
    remember (insert_notes (32 + 32 + 64) (recurse_notes synth)
                (insert_notes 0 (recurse_notes alaap)
                   (Part_insert 0 (PInstrument Sitar) (set_id new_Part "Sitar"))))
      as sitar eqn:Hsitar.
    clear.
    vm_compute. reflexivity.
  - repeat split; vm_compute; reflexivity.
Qed.

Lemma foldM_invariant (A S : Type) (I : S -> Prop) (body : A -> S -> M S) :
  (forall a s g, I s -> exists s' g', body a s g = Ok (s', g') /\ I s') ->
  forall (l : list A) (s : S) (g : rng),
    I s -> exists s' g', foldM body l s g = Ok (s', g') /\ I s'.
Proof.
  intros Hbody. induction l as [|a l IH]; intros s g Hs; cbn [foldM].
  - exists s, g. split; [reflexivity|exact Hs].
  - destruct (Hbody a s g Hs) as (s1 & g1 & H1 & Hs1).
    unfold bind. rewrite H1. apply IH. exact Hs1.
Qed.

(** The synthesis melody is generated from every state, and holds
    nothing but the sitar marker and plain notes. *)
Lemma synthesis_runs (g : rng) :
  exists synth g',
    generate_synthesis_melody g = Ok (synth, g') /\
    Forall (fun y => plain_element (snd y)) (part_elements synth).
Proof.
  unfold generate_synthesis_melody.
  erewrite bind_run by (vm_compute; reflexivity).
  apply foldM_invariant.
  - intros _ s g0 Hs.
    change (map nameWithOctave _) with yaman_D4_names.
    destruct (random_choice_In string "D4"%string (tl yaman_D4_names) g0)
      as (name & g1 & Hrun & Hname).
    change ("D4"%string :: tl yaman_D4_names) with yaman_D4_names in Hrun, Hname.
    destruct (scale_names_parse name Hname) as (p & Hp).
    unfold bind at 1. rewrite Hrun.
    unfold bind, lift, Note_of_name. rewrite Hp. cbn [Res.bind].
    eexists. eexists. split; [reflexivity|].
    unfold Part_append, append, insert. cbn [part_elements].
    apply place_Forall; [reflexivity|exact Hs].
  - repeat constructor.
Qed.

(** C7.  The built score holds exactly two tempo markers, among the
    elements of the score itself beside its four parts (a part has no
    place for one): 72 at offset 0 and 108 at offset 64, and 108 is 72
    times 3/2. *)
Theorem score_tempo_markers :
  forall (fuel : nat) (g : rng),
    exists score g' t0 t1,
      build_sahar_e_nau (alaap_fuel 32 + fuel) g = Ok (score, g') /\
      tempo_marks score = [(0, t0); (64, t1)] /\
      t0 = 72%Z /\ t1 = 108%Z /\ t0 <> t1 /\
      inject_Z t1 == (3 # 2) * inject_Z t0 /\
      map snd (score_elements score)
      = map SPart (parts score) ++ [SMetronomeMark t0; SMetronomeMark t1] /\
      List.length (parts score) = 4%nat.
Proof.
  intros fuel g.
  destruct (generate_alaap_runs 32 fuel g) as (new & e & g1 & Halaap & _).
  destruct (synthesis_runs g1) as (synth & g2 & Hsynth & _).
  destruct (build_runs _ _ _ _ _ _ Halaap Hsynth)
    as (drone & fracture & riff & bar & cello & guitar & drums
        & _ & _ & _ & _ & Hbuild & _).
  eexists. exists g2, 72%Z, 108%Z. split; [exact Hbuild|].
  repeat split; try reflexivity. discriminate.
Qed.

(** C3, the drum part.  In the built score the drum part holds the
    percussion marker twice, at 0 and at 64, and its sixteen Keherwa
    measures at 68, 72, ..., 128: the loop over the drum part visits
    the marker first, which takes the slot at 64, so the first
    measure enters one bar late.  The cello events lie at 32 + 2k and
    the guitar events at 64 + 4k. *)
Theorem drum_measures_enter_at_68 :
  forall (fuel : nat) (g : rng),
    exists score g' sitar cello guitar drums,
      build_sahar_e_nau (alaap_fuel 32 + fuel) g = Ok (score, g') /\
      parts score = [sitar; cello; guitar; drums] /\
      part_id drums = Some "Drums"%string /\
      instrument_offsets drums = [0; 64] /\
      measure_offsets drums
      = [68; 72; 76; 80; 84; 88; 92; 96; 100; 104; 108; 112; 116; 120; 124; 128] /\
      note_offsets cello
      = [32; 34; 36; 38; 40; 42; 44; 46; 48; 50; 52; 54; 56; 58; 60; 62] /\
      note_offsets guitar
      = [64; 68; 72; 76; 80; 84; 88; 92; 96; 100; 104; 108; 112; 116; 120; 124].
Proof.
  intros fuel g.
  destruct (generate_alaap_runs 32 fuel g) as (new & e & g1 & Halaap & _).
  destruct (synthesis_runs g1) as (synth & g2 & Hsynth & _).
  destruct (build_runs _ _ _ _ _ _ Halaap Hsynth)
    as (drone & fracture & riff & bar & cello & guitar & drums
        & _ & _ & _ & _ & Hbuild & _ & _ & _ & _ & Hid & _ & _ & _
        & Hcello & Hguitar & Hinstr & Hmeas).
  eexists. exists g2. eexists. exists cello, guitar, drums.
  split; [exact Hbuild|]. split; [reflexivity|]. auto 10.
Qed.

End Builder.

(** ** What the built score holds *)

Lemma recurse_notes_incl (p q : Part) :
  incl (part_elements p) (part_elements q) ->
  incl (map snd (recurse_notes p)) (map snd (recurse_notes q)).
Proof.
  intros H g Hg. apply in_map_iff in Hg. destruct Hg as (x & <- & Hx).
  apply in_map. unfold recurse_notes in *. apply in_flat_map in Hx.
  destruct Hx as (y & Hy & Hx). apply in_flat_map. exists y. auto.
Qed.

Lemma insert_notes_keeps_master (start : Q) (fragment : list (Q * GeneralNote))
      (master : Part) :
  incl (map snd (recurse_notes master))
       (map snd (recurse_notes (insert_notes start fragment master))).
Proof.
  apply recurse_notes_incl. intros y Hy. apply insert_notes_In. auto.
Qed.

Lemma insert_notes_keeps_fragment (start : Q) (fragment : list (Q * GeneralNote))
      (master : Part) :
  incl (map snd fragment)
       (map snd (recurse_notes (insert_notes start fragment master))).
Proof.
  intros g Hg. apply in_map_iff in Hg. destruct Hg as (x & <- & Hx).
  apply in_map_iff. exists (Qred (start + fst x), snd x). split; [reflexivity|].
  apply recurse_notes_In. apply insert_notes_In. right.
  unfold shift. apply in_map_iff. exists x. auto.
Qed.

Lemma insert_notes_no_drone (start : Q) (fragment : list (Q * GeneralNote))
      (master : Part) :
  Forall (fun y => no_drone_element (snd y)) (part_elements master) ->
  Forall (fun x => is_drone_note (snd x) = false) fragment ->
  Forall (fun y => no_drone_element (snd y))
         (part_elements (insert_notes start fragment master)).
Proof.
  intros Hm Hf. apply Forall_forall. intros y Hy.
  apply insert_notes_In in Hy. destruct Hy as [Hy|Hy].
  - rewrite Forall_forall in Hm. auto.
  - unfold shift in Hy. apply in_map_iff in Hy. destruct Hy as (x & <- & Hx).
    rewrite Forall_forall in Hf. cbn. auto.
Qed.

Lemma recurse_notes_measures (i : option string) (e1 e2 : Q * Instrument)
      (f : Z -> Q) (bar : Measure) (l : list Z) :
  recurse_notes
    (mkPart i ((fst e1, PInstrument (snd e1)) :: (fst e2, PInstrument (snd e2))
                 :: map (fun k => (f k, PMeasure bar)) l))
  = flat_map (fun _ => measure_elements bar) l.
Proof.
  unfold recurse_notes. cbn [part_elements flat_map snd app].
  induction l as [|k l IH]; [reflexivity|].
  cbn [map flat_map snd]. rewrite IH. reflexivity.
Qed.

Section Merging.
Context {rng : Type} {RS : RandomSource rng}.

(** C5 (amended).  [build_sahar_e_nau] runs every fragment generator,
    the drone's included, and the notes and chords of the alaap, the
    fracture texture, the rock riff, the Keherwa cycle and the
    synthesis melody are all among the events of the built score; the
    drone's two notes are generated and left out: neither is among the
    events of the score. *)
Theorem build_merges_all_but_drone :
  forall (fuel : nat) (g : rng),
    exists alaap drone fracture riff bar synth g1 g2 score,
      generate_alaap (alaap_fuel 32 + fuel) 32 g = Ok (alaap, g1) /\
      create_sitar_drone g1 = Ok (drone, g1) /\
      generate_fracture_texture g1 = Ok (fracture, g1) /\
      generate_rock_riff g1 = Ok (riff, g1) /\
      create_keherwa_cycle g1 = Ok (bar, g1) /\
      generate_synthesis_melody g1 = Ok (synth, g2) /\
      build_sahar_e_nau (alaap_fuel 32 + fuel) g = Ok (score, g2) /\
      incl (map snd (recurse_notes alaap)) (score_notes score) /\
      incl (map snd (recurse_notes fracture)) (score_notes score) /\
      incl (map snd (recurse_notes riff)) (score_notes score) /\
      incl (map snd (measure_elements bar)) (score_notes score) /\
      incl (map snd (recurse_notes synth)) (score_notes score) /\
      List.length (recurse_notes drone) = 2%nat /\
      Forall (fun x => ~ In (snd x) (score_notes score)) (recurse_notes drone).
Proof.
  intros fuel g.
  destruct (generate_alaap_runs 32 fuel g)
    as (new & e & g1 & Halaap & Hnew & Htrace & _).
  destruct (synthesis_runs g1) as (synth & g2 & Hsynth & Hplain).
  destruct (build_runs _ _ _ _ _ _ Halaap Hsynth)
    as (drone & fracture & riff & bar & cello & guitar & drums
        & Hdrone & Hfracture & Hriff & Hbar & Hbuild
        & _ & Hcello & _ & Hguitar & _ & Hdrums & Hisdrone & Hnone & _).
  set (alaap := mkPart None ((0, PInstrument Sitar)
                               :: map (fun x => (fst x, PNote (snd x))) new)) in *.
  set (base := Part_insert 0 (PInstrument Sitar) (set_id new_Part "Sitar")) in *.
  set (sitar := insert_notes (32 + 32 + 64) (recurse_notes synth)
                             (insert_notes 0 (recurse_notes alaap) base)) in *.
  exists alaap, drone, fracture, riff, bar, synth, g1, g2. eexists.
  do 6 (split; [eassumption|]). split; [exact Hbuild|].
  unfold score_notes, parts.
  cbn [score_elements flat_map snd app]. rewrite app_nil_r.
  destruct cello as [cid cels], guitar as [gid gels], drums as [did dels].
  cbn [part_elements] in Hcello, Hguitar, Hdrums. subst cels gels dels.
  rewrite !recurse_notes_shift.
  rewrite (recurse_notes_measures did (0, UnpitchedPercussion)
             (64, UnpitchedPercussion)).
  assert (Hbars : incl (map snd (measure_elements bar))
                       (map snd (flat_map (fun _ : Z => measure_elements bar) (range 16)))).
  { intros x Hx. apply in_map_iff in Hx. destruct Hx as (y & <- & Hy).
    apply in_map. apply in_flat_map. exists 0%Z. split; [left; reflexivity|exact Hy]. }
  assert (Hnodrone : forall x,
             In x (map snd (recurse_notes sitar) ++ map snd (recurse_notes fracture)
                     ++ map snd (recurse_notes riff)
                     ++ map snd (flat_map (fun _ : Z => measure_elements bar) (range 16)))
             -> is_drone_note x = false).
  { assert (Hrest : forall y, In y (recurse_notes fracture ++ recurse_notes riff
                                      ++ measure_elements bar)
                              -> is_drone_note (snd y) = false).
    { intros y Hy. rewrite forallb_forall in Hnone. specialize (Hnone y Hy).
      apply negb_true_iff in Hnone. exact Hnone. }
    assert (Hsitar : Forall (fun x => is_drone_note (snd x) = false) (recurse_notes sitar)).
    { apply recurse_notes_no_drone. apply insert_notes_no_drone.
      - apply insert_notes_no_drone.
        + repeat constructor.
        + rewrite Hnew. eapply Forall_impl; [|exact (alaap_trace_notes _ _ _ _ Htrace)].
          intros x (n & -> & Hn). cbn. rewrite (alaap_note_plain n Hn). reflexivity.
      - apply recurse_notes_no_drone. eapply Forall_impl; [|exact Hplain].
        intros y Hy. apply plain_no_drone. exact Hy. }
    intros x Hx. rewrite !in_app_iff in Hx.
    destruct Hx as [Hx|[Hx|[Hx|Hx]]];
      apply in_map_iff in Hx; destruct Hx as (y & <- & Hy).
    - rewrite Forall_forall in Hsitar. auto.
    - apply Hrest. rewrite !in_app_iff. auto.
    - apply Hrest. rewrite !in_app_iff. auto.
    - apply in_flat_map in Hy. destruct Hy as (k & _ & Hy).
      apply Hrest. rewrite !in_app_iff. auto. }
  repeat split.
  - intros x Hx. apply in_or_app. left.
    apply insert_notes_keeps_master. apply insert_notes_keeps_fragment. exact Hx.
  - intros x Hx. rewrite !in_app_iff. auto.
  - intros x Hx. rewrite !in_app_iff. auto.
  - intros x Hx. rewrite !in_app_iff. auto.
  - intros x Hx. apply in_or_app. left.
    apply insert_notes_keeps_fragment. exact Hx.
  - destruct (recurse_notes drone) as [|a [|b [|c l]]]; try discriminate. reflexivity.
  - apply Forall_forall. intros x Hx Hin.
    apply Hnodrone in Hin.
    assert (Ht : is_drone_note (snd x) = true).
    { destruct (recurse_notes drone) as [|a [|b [|c l]]]; try discriminate.
      injection Hisdrone as Ha Hb.
      destruct Hx as [<-|[<-|[]]]; assumption. }
    congruence.
Qed.

End Merging.

(** C5 as stated fails: in the score built from the seed 7 the first
    note of the drone, generated by the builder, is not among the
    events of the score. *)
Lemma drone_absent_from_score :
  exists score g' drone x,
    build_sahar_e_nau 64 7%N = Ok (score, g') /\
    create_sitar_drone 7%N = Ok (drone, 7%N) /\
    In x (recurse_notes drone) /\
    ~ In (snd x) (score_notes score).
Proof.
  do 4 eexists.
  split; [vm_compute; reflexivity|].
  split; [vm_compute; reflexivity|].
  split; [left; reflexivity|].
  intros Hin.
  apply (in_map is_drone_note) in Hin.
  revert Hin. vm_compute.
  intros Hin. repeat (destruct Hin as [Hin|Hin]; [discriminate Hin|]). exact Hin.
Qed.

(** ** The timeline assembler keeps the order of a fragment *)

Section Order.
Variable E : Type.
Variable cso : E -> Z.

Lemma sortsBefore_spec (x y : Q * E) :
  sortsBefore cso x y = true <->
  fst x < fst y \/ (fst x == fst y /\ (cso (snd x) <= cso (snd y))%Z).
Proof.
  unfold sortsBefore. destruct (Qeq_bool (fst x) (fst y)) eqn:Heq.
  - apply Qeq_bool_iff in Heq. rewrite Z.leb_le. split.
    + auto.
    + intros [H|[_ H]]; [lra|exact H].
  - apply Qeq_bool_neq in Heq. rewrite Qle_bool_iff. split.
    + intros H. left. apply Qle_lteq in H. tauto.
    + intros [H|[H _]]; [lra|contradiction].
Qed.

Lemma sortsBefore_trans (x y z : Q * E) :
  sortsBefore cso x y = true -> sortsBefore cso y z = true ->
  sortsBefore cso x z = true.
Proof.
  rewrite !sortsBefore_spec.
  intros [H1|[H1 H1']] [H2|[H2 H2']].
  - left. lra.
  - left. lra.
  - left. lra.
  - right. split; [lra|lia].
Qed.

Lemma sortsBefore_total (x y : Q * E) :
  sortsBefore cso x y = false -> sortsBefore cso y x = true.
Proof.
  intros H. apply sortsBefore_spec.
  assert (Hn : ~ (fst x < fst y \/ (fst x == fst y /\ (cso (snd x) <= cso (snd y))%Z))).
  { rewrite <- sortsBefore_spec. congruence. }
  destruct (Q_dec (fst x) (fst y)) as [[Hlt|Hgt]|Heq].
  - tauto.
  - auto.
  - right. split; [lra|]. destruct (Z.le_gt_cases (cso (snd x)) (cso (snd y))); [tauto|lia].
Qed.

Lemma place_sorted (x : Q * E) (s : list (Q * E)) :
  stream_sorted cso s -> stream_sorted cso (place cso x s).
Proof.
  induction s as [|y s IH]; cbn [place stream_sorted].
  - auto.
  - intros [Hy Hs]. destruct (sortsBefore cso y x) eqn:Hyx; cbn [stream_sorted].
    + split; [|auto]. apply place_Forall; assumption.
    + apply sortsBefore_total in Hyx. repeat split; auto.
      constructor; [exact Hyx|].
      eapply Forall_impl; [|exact Hy]. cbn beta. intros z Hz.
      eapply sortsBefore_trans; eassumption.
Qed.

Lemma subseq_nil_l (A : Type) (l : list A) : subseq [] l.
Proof. induction l; constructor; assumption. Qed.

Lemma subseq_refl (A : Type) (l : list A) : subseq l l.
Proof. induction l; [constructor|apply subseq_keep; assumption]. Qed.

Lemma subseq_trans (A : Type) (l1 l2 l3 : list A) :
  subseq l1 l2 -> subseq l2 l3 -> subseq l1 l3.
Proof.
  intros H12 H23. revert l1 H12.
  induction H23 as [|x l2 l3 _ IH|x l2 l3 _ IH]; intros l1 H12.
  - exact H12.
  - constructor. auto.
  - inversion H12 as [|? ? ? H12'|? l1' ? H12']; subst.
    + apply subseq_skip. auto.
    + apply subseq_keep. auto.
Qed.

Lemma subseq_In (A : Type) (l1 l2 : list A) (a : A) :
  subseq l1 l2 -> In a l1 -> In a l2.
Proof.
  induction 1; cbn; intuition.
Qed.

Lemma subseq_place (x : Q * E) (s : list (Q * E)) : subseq s (place cso x s).
Proof.
  induction s as [|y s IH]; cbn [place].
  - apply subseq_skip. constructor.
  - destruct (sortsBefore cso y x).
    + apply subseq_keep. exact IH.
    + apply subseq_skip. apply subseq_refl.
Qed.

(** An element behind which all of [l] sorts lands behind all of [l]. *)
Lemma subseq_place_end (x : Q * E) (s : list (Q * E)) :
  stream_sorted cso s ->
  forall l, subseq l s ->
            Forall (fun y => sortsBefore cso y x = true) l ->
            subseq (l ++ [x]) (place cso x s).
Proof.
  induction s as [|y s IH]; intros Hs l Hsub Hl; cbn [place].
  - inversion Hsub; subst. apply subseq_refl.
  - destruct Hs as [Hy Hs]. destruct (sortsBefore cso y x) eqn:Hyx.
    + inversion Hsub as [|? ? ? Hsub'|? l' ? Hsub']; subst.
      * apply subseq_skip. apply IH; assumption.
      * cbn [app]. apply subseq_keep. apply IH; [assumption..|].
        inversion Hl; assumption.
    + assert (Hnil : l = []).
      { destruct l as [|z l]; [reflexivity|exfalso].
        assert (Hz : sortsBefore cso z x = true) by (inversion Hl; assumption).
        assert (Hin : In z (y :: s)) by (eapply subseq_In; [exact Hsub|left; reflexivity]).
        destruct Hin as [->|Hin]; [congruence|].
        rewrite Forall_forall in Hy.
        pose proof (sortsBefore_trans _ _ _ (Hy z Hin) Hz). congruence. }
      subst l. cbn [app]. apply subseq_keep. apply subseq_nil_l.
Qed.

End Order.

Lemma time_ordered_snoc (E : Type) (f : list (Q * E)) (x : Q * E) :
  time_ordered (f ++ [x]) -> time_ordered f /\ Forall (fun y => fst y <= fst x) f.
Proof.
  induction f as [|y f IH]; cbn [app time_ordered].
  - auto.
  - intros [Hy Hf]. destruct (IH Hf) as [Hf' Hle].
    apply Forall_app in Hy. destruct Hy as [Hy Hyx].
    repeat split; auto. constructor; [|exact Hle].
    inversion Hyx; assumption.
Qed.

(** Placing a fragment whose offsets never decrease into a sorted part
    keeps what the part held, keeps it sorted, and holds the events of
    the fragment in their order. *)
Lemma insert_notes_order (start : Q) (fragment : list (Q * GeneralNote))
      (master : Part) :
  stream_sorted part_sortOrder (part_elements master) ->
  time_ordered fragment ->
  stream_sorted part_sortOrder (part_elements (insert_notes start fragment master)) /\
  subseq (part_elements master) (part_elements (insert_notes start fragment master)) /\
  subseq (shift start fragment) (part_elements (insert_notes start fragment master)).
Proof.
  intros Hm. induction fragment as [|x f IH] using rev_ind; intros Hf.
  - cbn. repeat split; [exact Hm|apply subseq_refl|apply subseq_nil_l].
  - apply time_ordered_snoc in Hf. destruct Hf as [Hf Hle].
    destruct (IH Hf) as (Hsorted & Hkeep & Hsub).
    unfold insert_notes in *. rewrite fold_left_app. cbn [fold_left].
    unfold Part_insert at 1 3 5, insert. cbn [part_elements].
    repeat split.
    + apply place_sorted. exact Hsorted.
    + eapply subseq_trans; [exact Hkeep|apply subseq_place].
    + unfold shift. rewrite map_app. cbn [map].
      apply subseq_place_end; [exact Hsorted|exact Hsub|].
      apply Forall_forall. intros y Hy. apply in_map_iff in Hy.
      destruct Hy as (z & <- & Hz). rewrite Forall_forall in Hle.
      apply sortsBefore_spec. cbn [fst snd part_sortOrder note_sortOrder].
      rewrite !Qred_correct. specialize (Hle z Hz).
      destruct (Qlt_le_dec (fst z) (fst x)); [left; lra|right; split; [lra|]].
      unfold note_sortOrder. lia.
Qed.

(** The timeline assembler keeps the internal order of each fragment:
    for two fragments in time order placed one after the other at the
    offsets [O1 < O2], where [O2] leaves room for the nominal length
    [L] of the first, the merged timeline lists the events of each
    fragment in the order the fragment has them. *)
Lemma assembler_preserves_order (O1 O2 L : Q)
      (f1 f2 : list (Q * GeneralNote)) (master : Part) :
  stream_sorted part_sortOrder (part_elements master) ->
  time_ordered f1 -> time_ordered f2 ->
  O1 < O2 -> O1 + L <= O2 ->
  subseq (shift O1 f1)
         (part_elements (insert_notes O2 f2 (insert_notes O1 f1 master))) /\
  subseq (shift O2 f2)
         (part_elements (insert_notes O2 f2 (insert_notes O1 f1 master))).
Proof.
  intros Hm H1 H2 _ _.
  destruct (insert_notes_order O1 f1 master Hm H1) as (Hs1 & _ & Hsub1).
  destruct (insert_notes_order O2 f2 (insert_notes O1 f1 master) Hs1 H2)
    as (_ & Hkeep & Hsub2).
  split; [|exact Hsub2].
  eapply subseq_trans; [exact Hsub1|exact Hkeep].
Qed.

(* ================================================================== *)
(** * Further properties of the generators *)


Lemma scale_pitch_plain (name : string) (p : Pitch) (scale : list Pitch) :
  In name yaman_D4_names -> Pitch_of_name name = Ok p ->
  get_yaman_scale "D4" = Ok scale ->
  In p (map (fun q => set_microtone q 0) scale) /\ microtone p = 0%Z.
Proof.
  intros Hname Hp Hscale.
  vm_compute in Hscale. injection Hscale as <-.
  cbn in Hname.
  repeat (destruct Hname as [<-|Hname];
          [vm_compute in Hp; injection Hp as <-; split; [vm_compute; tauto|reflexivity]|]).
  contradiction.
Qed.

Section AlaapContent.
Context {rng : Type} {RS : RandomSource rng}.



End AlaapContent.


(** ** The synthesis melody *)

Lemma highestTime_snoc (E : Type) (dur : E -> Q) (s : list (Q * E)) (x : Q * E) :
  highestTime dur (s ++ [x])
  = Qmax' (highestTime dur s) (Qred (fst x + dur (snd x))).
Proof.
  unfold highestTime. rewrite fold_left_app. reflexivity.
Qed.

Lemma total_duration_eighths (l : list (Q * GeneralNote)) :
  Forall (fun x => quarterLength (snd x) = 1 # 2) l ->
  total_duration l == (1 # 2) * inject_Z (Z.of_nat (List.length l)).
Proof.
  induction 1 as [|x l Hx _ IH].
  - cbn [total_duration fold_right List.length Z.of_nat].
    change (inject_Z 0) with 0. lra.
  - cbn [total_duration fold_right List.length]. fold (total_duration l).
    rewrite Hx, Nat2Z.inj_succ. unfold Z.succ. rewrite inject_Z_plus.
    change (inject_Z 1) with 1. lra.
Qed.

Section Synthesis.
Context {rng : Type} {RS : RandomSource rng}.

(** The loop of [generate_synthesis_melody], entered with a part that
    ends at [c]: every pass appends one eighth note at the end. *)
Lemma synthesis_loop_runs (l : list Z) :
  forall (part : Part) (g : rng) (c : Q),
    highestTime part_duration (part_elements part) == c ->
    Forall (fun y => fst y <= c) (part_elements part) ->
    exists new g',
      foldM (fun (_ : Z) synthesis_part =>
               bind (random_choice yaman_D4_names)
                    (fun name =>
                       bind (lift (Note_of_name name))
                            (fun n =>
                               ret (Part_append
                                      (PNote (ANote (set_note_quarterLength n (1 # 2))))
                                      synthesis_part))))
            l part g
      = Ok (mkPart (part_id part)
                   (part_elements part
                      ++ map (fun x => (fst x, PNote (snd x))) new), g') /\
      List.length new = List.length l /\
      contiguous c new /\
      Forall (fun x => exists n, snd x = ANote n /\ alaap_note n /\
                                 note_quarterLength n = 1 # 2) new.
Proof.
  induction l as [|k l IH]; intros part g c Hc Hsorted; cbn [foldM].
  - exists [], g. cbn [map]. rewrite app_nil_r. destruct part.
    repeat split. constructor.
  - destruct (random_choice_In string "D4"%string (tl yaman_D4_names) g)
      as (name & g1 & Hrun & Hname).
    change ("D4"%string :: tl yaman_D4_names) with yaman_D4_names in Hrun, Hname.
    destruct (scale_names_parse name Hname) as (p & Hp).
    erewrite bind_run;
      [|erewrite bind_run by exact Hrun;
        erewrite bind_run;
        [reflexivity|unfold lift, Note_of_name; rewrite Hp; reflexivity]].
    set (n := set_note_quarterLength (Note_of_pitch p) (1 # 2)).
    set (h := highestTime part_duration (part_elements part)) in *.
    change (Part_append (PNote (ANote n)) part)
      with (Part_insert h (PNote (ANote n)) part).
    assert (Hsorted' : Forall (fun y => fst y <= h) (part_elements part)).
    { eapply Forall_impl; [|exact Hsorted]. cbn beta. intros y Hy. lra. }
    rewrite (Part_insert_note_end h _ part Hsorted').
    assert (Hn : alaap_note n).
    { exists name, p, (1 # 2). repeat split; auto. cbn. auto. }
    destruct (IH (mkPart (part_id part)
                         (part_elements part ++ [(Qred h, PNote (ANote n))]))
                 g1 (c + (1 # 2)))
      as (new & g' & Hloop & Hlen & Hcont & Hall).
    { cbn [part_elements]. rewrite highestTime_snoc. fold h.
      cbn [fst snd part_duration quarterLength]. change (note_quarterLength n) with (1 # 2).
      unfold Qmax'. pose proof (Qred_correct h) as Hh.
      pose proof (Qred_correct (Qred h + (1 # 2))) as Hh'.
      destruct (Qle_bool h (Qred (Qred h + (1 # 2)))) eqn:Hle.
      - lra.
      - assert (~ h <= Qred (Qred h + (1 # 2)))
          by (rewrite <- Qle_bool_iff; congruence).
        lra. }
    { cbn [part_elements]. apply Forall_app. split.
      - eapply Forall_impl; [|exact Hsorted]. cbn beta. intros y Hy. lra.
      - constructor; [|constructor]. cbn [fst].
        pose proof (Qred_correct h). lra. }
    exists ((Qred h, ANote n) :: new), g'.
    rewrite Hloop. cbn [part_id part_elements map fst snd].
    rewrite <- app_assoc. cbn [app].
    repeat split.
    + cbn [List.length]. lia.
    + cbn [fst]. pose proof (Qred_correct h). lra.
    + exact Hcont.
    + constructor; [|exact Hall]. exists n. repeat split. exact Hn.
Qed.

Lemma synthesis_runs_exact (g : rng) :
  exists new g',
    generate_synthesis_melody g
    = Ok (mkPart None ((0, PInstrument Sitar)
                         :: map (fun x => (fst x, PNote (snd x))) new), g') /\
    List.length new = 64%nat /\
    contiguous 0 new /\
    Forall (fun x => exists n, snd x = ANote n /\ alaap_note n /\
                               note_quarterLength n = 1 # 2) new.
Proof.
  unfold generate_synthesis_melody.
  erewrite bind_run by (vm_compute; reflexivity).
  change (map nameWithOctave _) with yaman_D4_names.
  destruct (synthesis_loop_runs (range (8 * 8))
              (Part_insert 0 (PInstrument Sitar) new_Part) g 0)
    as (new & g' & Hloop & Hlen & Hcont & Hall).
  { reflexivity. }
  { constructor; [cbn; lra|constructor]. }
  exists new, g'. split; [exact Hloop|]. auto.
Qed.

(** X3.  From every state of the pseudorandom generator
    [generate_synthesis_melody] returns the sitar marker followed by
    exactly 64 single notes, each an eighth (1/2) long and each
    beginning where the one before it ends, from offset 0 to a total
    of 32 beats; every pitch is one of the seven of the Yaman scale on
    D4, without microtone. *)
Theorem synthesis_melody_straight_eighths :
  forall g : rng,
    exists part g' scale,
      generate_synthesis_melody g = Ok (part, g') /\
      get_yaman_scale "D4" = Ok scale /\
      instrument_offsets part = [0] /\
      List.length (recurse_notes part) = 64%nat /\
      contiguous 0 (recurse_notes part) /\
      total_duration (recurse_notes part) == 32 /\
      Forall (fun x => exists n,
                  snd x = ANote n /\ note_quarterLength n = 1 # 2 /\
                  In (pitch n) (map (fun q => set_microtone q 0) scale) /\
                  microtone (pitch n) = 0%Z)
             (recurse_notes part).
Proof.
  intros g.
  destruct (synthesis_runs_exact g) as (new & g' & Hrun & Hlen & Hcont & Hall).
  eexists. exists g'. eexists.
  split; [exact Hrun|]. split; [vm_compute; reflexivity|].
  pose proof (recurse_notes_app None [(0, PInstrument Sitar)] new) as Hnotes.
  change (recurse_notes (mkPart None [(0, PInstrument Sitar)]) ++ new) with new in Hnotes.
  cbn [app] in Hnotes. rewrite Hnotes.
  repeat split.
  - unfold instrument_offsets. cbn [part_elements flat_map snd fst app].
    clear. induction new as [|x new IH]; [reflexivity|exact IH].
  - exact Hlen.
  - exact Hcont.
  - rewrite total_duration_eighths.
    + rewrite Hlen. reflexivity.
    + eapply Forall_impl; [|exact Hall].
      intros x (n & -> & _ & Hq). exact Hq.
  - eapply Forall_impl; [|exact Hall].
    intros x (n & Hx & (name & p & d & Hname & Hp & Hd & Hn) & Hq).
    exists n. split; [exact Hx|]. split; [exact Hq|]. subst n.
    cbn [set_note_quarterLength Note_of_pitch pitch].
    exact (scale_pitch_plain name p _ Hname Hp eq_refl).
Qed.

End Synthesis.

(** ** Chords: the power chord, the riff, the drone, the cycle *)

Section Chords.
Context {rng : Type} {RS : RandomSource rng}.



(** X6.  [generate_rock_riff] returns 16 chords laid end to end, one
    every 4 beats from 0 to 60, each lasting 4 beats: 64 beats in all,
    the nominal length of the march.  In every group of four the first
    three are root-and-fifth power chords on D3, A2 and G2 and the
    fourth is the three-note G minor triad (minor third and fifth
    above G2). *)
Theorem rock_riff_sixteen_bars :
  forall g : rng,
    exists part,
      generate_rock_riff g = Ok (part, g) /\
      instrument_offsets part = [0] /\
      note_offsets part
      = [0; 4; 8; 12; 16; 20; 24; 28; 32; 36; 40; 44; 48; 52; 56; 60] /\
      map (fun x => quarterLength (snd x)) (recurse_notes part) = repeat 4 16 /\
      total_duration (recurse_notes part) == 32 + 32 /\
      map (fun x => map nameWithOctave (pitches (snd x))) (recurse_notes part)
      = List.concat (repeat [ ["D3"; "A3"]; ["A2"; "E3"]; ["G2"; "D3"];
                         ["G2"; "B-2"; "D3"] ]%string 4) /\
      map (fun x => intervals_from_root (snd x)) (recurse_notes part)
      = List.concat (repeat [ [0; 7]; [0; 7]; [0; 7]; [0; 3; 7] ]%Z 4).
Proof.
  intros g. eexists. split; [vm_compute; reflexivity|].
  repeat split; vm_compute; reflexivity.
Qed.

(** X7.  [create_sitar_drone] returns the sitar marker and two notes,
    D3 and the A3 a perfect fifth above it, all three at offset 0;
    both notes last 100 beats at velocity 30, and no random number is
    drawn. *)
Theorem sitar_drone_fifth :
  forall g : rng,
    exists part,
      create_sitar_drone g = Ok (part, g) /\
      instrument_offsets part = [0] /\
      note_offsets part = [0; 0] /\
      map (fun x => map nameWithOctave (pitches (snd x))) (recurse_notes part)
      = [["D3"]; ["A3"]]%string /\
      map (fun x => map semitones (pitches (snd x))) (recurse_notes part)
      = [[50]; [57]]%Z /\
      map (fun x => quarterLength (snd x)) (recurse_notes part) = [100; 100] /\
      map (fun x => loudness (snd x)) (recurse_notes part)
      = [Some 30; Some 30]%Z.
Proof.
  intros g. eexists. split; [vm_compute; reflexivity|].
  repeat split; vm_compute; reflexivity.
Qed.

(** X8.  In the measure of [create_keherwa_cycle] every stroke begins
    where the one before it ends, at 0, 2/3, 1, 5/3, 2, 8/3, 3, 11/3,
    and sounds the MIDI numbers that [tabla_map] gives for its name:
    the two-sound strokes Dha and Dhin are chords, the others single
    notes. *)
Theorem keherwa_cycle_strokes :
  forall g : rng,
    exists m,
      create_keherwa_cycle g = Ok (m, g) /\
      timeSignature m = Some "4/4"%string /\
      map fst (measure_elements m)
      = [0; 2 # 3; 1; 5 # 3; 2; 8 # 3; 3; 11 # 3] /\
      contiguous 0 (measure_elements m) /\
      map (fun x => Some (map semitones (pitches (snd x)))) (measure_elements m)
      = map (fun bol => lookup bol tabla_map)
            ["Dha"; "Ge"; "Na"; "Tin"; "Na"; "Ka"; "Dhin"; "Na"]%string /\
      map (fun x => match snd x with ANote _ => false | AChord _ => true end)
          (measure_elements m)
      = [true; false; false; false; false; false; true; false].
Proof.
  intros g. eexists. split; [vm_compute; reflexivity|].
  repeat split; vm_compute; reflexivity.
Qed.

(** X9.  The riff plays the progression of [chord_progression]: the
    table holds four triads under the keys I, V, IV and iv, major
    (4 and 7 semitones above the root) but for the minor iv (3 and
    7); the lowest pitch of the riff's bars 1 to 3 is the root of I,
    V and IV, and bar 4 has exactly the pitches of iv. *)
Theorem riff_follows_progression :
  forall g : rng,
    exists table part cI cV cIV civ b1 b2 b3 b4 rest,
      chord_progression = Ok table /\
      map fst table = ["I"; "V"; "IV"; "iv"]%string /\
      lookup "I" table = Some cI /\ lookup "V" table = Some cV /\
      lookup "IV" table = Some cIV /\ lookup "iv" table = Some civ /\
      map (fun c => intervals_from_root (AChord c)) [cI; cV; cIV; civ]
      = [[0; 4; 7]; [0; 4; 7]; [0; 4; 7]; [0; 3; 7]]%Z /\
      generate_rock_riff g = Ok (part, g) /\
      map snd (recurse_notes part) = b1 :: b2 :: b3 :: b4 :: rest /\
      map (fun b => hd_error (pitches b)) [b1; b2; b3]
      = map (fun c => hd_error (pitches (AChord c))) [cI; cV; cIV] /\
      pitches b4 = pitches (AChord civ).
Proof.
  intros g. do 11 eexists.
  split; [vm_compute; reflexivity|].
  split; [reflexivity|].
  do 4 (split; [reflexivity|]).
  split; [reflexivity|].
  split; [vm_compute; reflexivity|].
  split; [reflexivity|].
  split; reflexivity.
Qed.

End Chords.



(** ** The timeline assembler and the drum loop *)

Lemma place_Permutation (E : Type) (cso : E -> Z) (x : Q * E) (s : list (Q * E)) :
  Permutation (place cso x s) (x :: s).
Proof.
  induction s as [|y s IH]; cbn [place].
  - apply Permutation_refl.
  - destruct (sortsBefore cso y x).
    + eapply perm_trans; [apply perm_skip; exact IH|apply perm_swap].
    + apply Permutation_refl.
Qed.

Lemma insert_notes_cons (start : Q) (x : Q * GeneralNote)
      (fragment : list (Q * GeneralNote)) (master : Part) :
  insert_notes start (x :: fragment) master
  = insert_notes start fragment (Part_insert (start + fst x) (PNote (snd x)) master).
Proof. reflexivity. Qed.

Lemma insert_notes_id (start : Q) (fragment : list (Q * GeneralNote)) :
  forall master : Part,
    part_id (insert_notes start fragment master) = part_id master.
Proof.
  induction fragment as [|x f IH]; intros master; [reflexivity|].
  rewrite insert_notes_cons, IH. reflexivity.
Qed.

(** A fragment in time order that begins no earlier than the part
    ends is appended to the part, event by event. *)
Lemma insert_notes_at_end (start : Q) (fragment : list (Q * GeneralNote)) :
  forall master : Part,
    time_ordered fragment ->
    Forall (fun y => Forall (fun x => fst y <= start + fst x) fragment)
           (part_elements master) ->
    part_elements (insert_notes start fragment master)
    = part_elements master ++ shift start fragment.
Proof.
  induction fragment as [|x f IH]; intros master Hf Hm.
  - cbn. rewrite app_nil_r. reflexivity.
  - destruct Hf as [Hx Hf]. rewrite insert_notes_cons.
    assert (Hend : Forall (fun y => fst y <= start + fst x) (part_elements master)).
    { eapply Forall_impl; [|exact Hm]. cbn beta. intros y Hy.
      inversion Hy; assumption. }
    rewrite (Part_insert_note_end (start + fst x) (snd x) master Hend).
    rewrite IH; [| exact Hf |].
    + cbn [part_elements shift map]. rewrite <- app_assoc. reflexivity.
    + cbn [part_elements]. apply Forall_app. split.
      * eapply Forall_impl; [|exact Hm]. cbn beta. intros y Hy.
        inversion Hy; assumption.
      * constructor; [|constructor]. cbn [fst].
        eapply Forall_impl; [|exact Hx]. cbn beta. intros z Hz.
        rewrite Qred_correct. lra.
Qed.

(** X10.  The assembler loses nothing and overwrites nothing: after
    [insert_notes] the part holds, up to order, what it held before
    and each event of the fragment once, at the start offset plus its
    own offset, also where offsets coincide; the id of the part is
    kept. *)
Theorem assembler_keeps_every_event :
  forall (start : Q) (fragment : list (Q * GeneralNote)) (master : Part),
    Permutation (part_elements (insert_notes start fragment master))
                (part_elements master ++ shift start fragment) /\
    List.length (recurse_notes (insert_notes start fragment master))
    = (List.length (recurse_notes master) + List.length fragment)%nat /\
    part_id (insert_notes start fragment master) = part_id master.
Proof.
  intros start fragment.
  assert (Hperm : forall master,
             Permutation (part_elements (insert_notes start fragment master))
                         (part_elements master ++ shift start fragment)).
  { induction fragment as [|x f IH]; intros master.
    - cbn. rewrite app_nil_r. apply Permutation_refl.
    - rewrite insert_notes_cons.
      eapply perm_trans; [apply IH|].
      unfold Part_insert, insert. cbn [part_elements shift map].
      eapply perm_trans;
        [apply Permutation_app_tail; apply place_Permutation|].
      cbn [app]. apply Permutation_middle. }
  intros master. split; [apply Hperm|]. split; [|apply insert_notes_id].
  unfold recurse_notes.
  rewrite (Permutation_length (Permutation_flat_map _ (Hperm master))).
  rewrite flat_map_app, length_app. f_equal.
  unfold shift. clear. induction fragment as [|x f IH]; [reflexivity|].
  cbn [map flat_map snd app List.length]. rewrite IH. reflexivity.
Qed.

(** X11.  Where the fragment is in time order and starts, once
    shifted, no earlier than any element the part already holds, the
    assembler appends it: the part is what it was, followed by the
    events of the fragment in their own order, none interleaved. *)
Theorem assembler_appends_later_fragment :
  forall (start : Q) (fragment : list (Q * GeneralNote)) (master : Part),
    time_ordered fragment ->
    Forall (fun y => Forall (fun x => fst y <= start + fst x) fragment)
           (part_elements master) ->
    part_elements (insert_notes start fragment master)
    = part_elements master ++ shift start fragment /\
    map snd (recurse_notes (insert_notes start fragment master))
    = map snd (recurse_notes master) ++ map snd fragment.
Proof.
  intros start fragment master Hf Hm.
  pose proof (insert_notes_at_end start fragment master Hf Hm) as Hend.
  split; [exact Hend|].
  unfold recurse_notes. rewrite Hend, flat_map_app, map_app. f_equal.
  unfold shift. clear. induction fragment as [|x f IH]; [reflexivity|].
  cbn [map flat_map snd app]. rewrite IH. reflexivity.
Qed.

Lemma insert_drums_fold (l : list (Q * PartElement)) :
  forall (master : Part) (c : Q),
    let r := fold_left
               (fun (st : Part * Q) x =>
                  let '(master_drums, current_drum_offset) := st in
                  (Part_insert current_drum_offset (snd x) master_drums,
                   current_drum_offset + 4))
               l (master, c) in
    Permutation (part_elements (fst r)) (part_elements master ++ drum_slots c l) /\
    snd r == c + 4 * inject_Z (Z.of_nat (List.length l)) /\
    part_id (fst r) = part_id master.
Proof.
  induction l as [|x l IH]; intros master c.
  - cbn [fold_left fst snd drum_slots List.length Z.of_nat]. cbn zeta.
    cbn [fst snd]. rewrite app_nil_r. change (inject_Z 0) with 0.
    repeat split; [apply Permutation_refl|lra].
  - cbn [fold_left drum_slots List.length].
    destruct (IH (Part_insert c (snd x) master) (c + 4)) as (Hperm & Hoff & Hid).
    cbn zeta in *. repeat split.
    + eapply perm_trans; [exact Hperm|].
      unfold Part_insert, insert. cbn [part_elements].
      eapply perm_trans;
        [apply Permutation_app_tail; apply place_Permutation|].
      cbn [app]. apply Permutation_middle.
    + rewrite Hoff, Nat2Z.inj_succ. unfold Z.succ. rewrite inject_Z_plus.
      change (inject_Z 1) with 1. lra.
    + rewrite Hid. reflexivity.
Qed.

(** X12.  The drum loop gives every element of the drum part a slot
    of its own, four beats after the slot before, starting at the
    given offset: an instrument marker takes a slot like a measure,
    and the offset an element had in the drum part plays no role.
    The loop ends with the offset moved on by four beats per element,
    and nothing the master part held is lost. *)
Theorem drum_loop_one_slot_per_element :
  forall (drums_part master_drums : Part) (current_drum_offset : Q),
    Permutation
      (part_elements (fst (insert_drums drums_part master_drums current_drum_offset)))
      (part_elements master_drums
         ++ drum_slots current_drum_offset (part_elements drums_part)) /\
    snd (insert_drums drums_part master_drums current_drum_offset)
    == current_drum_offset
       + 4 * inject_Z (Z.of_nat (List.length (part_elements drums_part))) /\
    part_id (fst (insert_drums drums_part master_drums current_drum_offset))
    = part_id master_drums.
Proof.
  intros drums_part master_drums c.
  exact (insert_drums_fold (part_elements drums_part) master_drums c).
Qed.

Lemma assembler_appends_later_fragment_witness :
  time_ordered [(0, ANote (Note_of_midi 62)); (1 # 2, ANote (Note_of_midi 64))] /\
  Forall (fun y => Forall (fun x => fst y <= 128 + fst x)
                          [(0, ANote (Note_of_midi 62)); (1 # 2, ANote (Note_of_midi 64))])
         (part_elements (Part_insert 0 (PInstrument Sitar) new_Part)) /\
  part_elements
    (insert_notes 128 [(0, ANote (Note_of_midi 62)); (1 # 2, ANote (Note_of_midi 64))]
                  (Part_insert 0 (PInstrument Sitar) new_Part))
  = part_elements (Part_insert 0 (PInstrument Sitar) new_Part)
      ++ shift 128 [(0, ANote (Note_of_midi 62)); (1 # 2, ANote (Note_of_midi 64))] /\
  map snd
    (recurse_notes
       (insert_notes 128 [(0, ANote (Note_of_midi 62)); (1 # 2, ANote (Note_of_midi 64))]
                     (Part_insert 0 (PInstrument Sitar) new_Part)))
  = map snd (recurse_notes (Part_insert 0 (PInstrument Sitar) new_Part))
      ++ map snd [(0, ANote (Note_of_midi 62)); (1 # 2, ANote (Note_of_midi 64))].
Proof.
  assert (H1 : time_ordered
                 [(0, ANote (Note_of_midi 62)); (1 # 2, ANote (Note_of_midi 64))]).
  { cbn. repeat split; repeat constructor; cbn; lra. }
  assert (H2 : Forall (fun y => Forall (fun x => fst y <= 128 + fst x)
                          [(0, ANote (Note_of_midi 62)); (1 # 2, ANote (Note_of_midi 64))])
                      (part_elements (Part_insert 0 (PInstrument Sitar) new_Part))).
  { cbn. repeat constructor; cbn; lra. }
  split; [exact H1|]. split; [exact H2|].
  exact (assembler_appends_later_fragment 128 _ _ H1 H2).
Defined.

(** ** The voices of the built score *)

Lemma contiguous_time_ordered (l : list (Q * GeneralNote)) :
  forall c : Q,
    contiguous c l ->
    Forall (fun x => 0 <= quarterLength (snd x)) l ->
    Forall (fun x => c <= fst x) l /\ time_ordered l /\
    Forall (fun x => fst x + quarterLength (snd x) <= c + total_duration l) l.
Proof.
  induction l as [|x l IH]; intros c Hc Hq; cbn [contiguous time_ordered] in *.
  - repeat split; constructor.
  - destruct Hc as [Hx Hc]. inversion Hq as [|? ? Hqx Hql]; subst.
    destruct (IH _ Hc Hql) as (Hge & Hord & Hend).
    cbn [total_duration fold_right]. fold (total_duration l).
    assert (Htot : 0 <= total_duration l).
    { clear -Hql. induction Hql as [|y l Hy _ IH]; cbn; [lra|].
      fold (total_duration l). lra. }
    repeat split.
    + constructor; [lra|]. eapply Forall_impl; [|exact Hge]. cbn beta. intros y Hy. lra.
    + eapply Forall_impl; [|exact Hge]. cbn beta. intros y Hy. lra.
    + exact Hord.
    + constructor; [lra|]. eapply Forall_impl; [|exact Hend]. cbn beta. intros y Hy. lra.
Qed.

Section Voices.
Context {rng : Type} {RS : RandomSource rng}.

(** X13.  In the built score the sitar voice is the sitar marker, then
    the events of the alaap at their own offsets, then the 64 events
    of the synthesis melody moved by 128, in this order and with
    nothing else: every event of the voice starts before 32 or from
    128 on.  The random state the builder leaves is the one left by
    the alaap followed by the synthesis melody. *)
Theorem sitar_voice_alaap_then_synthesis :
  forall (fuel : nat) (g : rng),
    exists alaap synth g1 g2 score sitar,
      generate_alaap (alaap_fuel 32 + fuel) 32 g = Ok (alaap, g1) /\
      generate_synthesis_melody g1 = Ok (synth, g2) /\
      build_sahar_e_nau (alaap_fuel 32 + fuel) g = Ok (score, g2) /\
      hd_error (parts score) = Some sitar /\
      part_id sitar = Some "Sitar"%string /\
      part_elements sitar
      = (0, PInstrument Sitar)
          :: shift 0 (recurse_notes alaap)
          ++ shift (32 + 32 + 64) (recurse_notes synth) /\
      Forall (fun x => 0 <= fst x /\ fst x < 32) (recurse_notes alaap) /\
      Forall (fun x => 0 <= fst x /\ fst x < 32) (recurse_notes synth) /\
      Forall (fun x => fst x < 32 \/ 128 <= fst x) (recurse_notes sitar).
Proof.
  intros fuel g.
  destruct (generate_alaap_runs 32 fuel g)
    as (new & e & g1 & Halaap & Hnew & Htrace & _).
  destruct (alaap_trace_props 32 0 e new Htrace) as (_ & _ & _ & Hcont & Hall).
  destruct (synthesis_runs_exact g1) as (snew & g2 & Hsynth & Hlen & Hscont & Hsall).
  pose proof (recurse_notes_app None [(0, PInstrument Sitar)] snew) as Hsnew.
  change (recurse_notes (mkPart None [(0, PInstrument Sitar)]) ++ snew) with snew in Hsnew.
  cbn [app] in Hsnew.
  destruct (build_runs _ _ _ _ _ _ Halaap Hsynth)
    as (drone & fracture & riff & bar & cello & guitar & drums
        & _ & _ & _ & _ & Hbuild & _).
  rewrite Hnew, Hsnew in Hbuild.
  assert (Hq : Forall (fun x => 0 <= quarterLength (snd x)) new).
  { eapply Forall_impl; [|exact Hall]. cbn beta. intros x [_ Hin].
    destruct (alaap_durations_reduced _ Hin) as (_ & Hlo & _). lra. }
  assert (Hsq : Forall (fun x => quarterLength (snd x) = 1 # 2) snew).
  { eapply Forall_impl; [|exact Hsall]. intros x (n & -> & _ & Hn). exact Hn. }
  assert (Hsq0 : Forall (fun x => 0 <= quarterLength (snd x)) snew).
  { eapply Forall_impl; [|exact Hsq]. cbn beta. intros x ->. lra. }
  destruct (contiguous_time_ordered new 0 Hcont Hq) as (Hge & Hord & _).
  destruct (contiguous_time_ordered snew 0 Hscont Hsq0) as (Hsge & Hsord & Hsend).
  pose proof (total_duration_eighths snew Hsq) as Htot. rewrite Hlen in Htot.
  assert (Halaap_range : Forall (fun x => 0 <= fst x /\ fst x < 32) new).
  { rewrite Forall_forall in *. intros x Hx. split; [auto|apply Hall; exact Hx]. }
  assert (Hsynth_range : Forall (fun x => 0 <= fst x /\ fst x < 32) snew).
  { rewrite Forall_forall in *. intros x Hx. split; [auto|].
    specialize (Hsend x Hx). rewrite (Hsq x Hx) in Hsend.
    change (inject_Z (Z.of_nat 64)) with 64 in Htot. lra. }
  change (Part_insert 0 (PInstrument Sitar) (set_id new_Part "Sitar"))
    with (mkPart (Some "Sitar"%string) [(0, PInstrument Sitar)]) in Hbuild.
  set (base := mkPart (Some "Sitar"%string) [(0, PInstrument Sitar)]) in *.
  assert (H1 : part_elements (insert_notes 0 new base)
               = (0, PInstrument Sitar) :: shift 0 new).
  { apply (insert_notes_at_end 0 new base Hord).
    constructor; [|constructor]. cbn [fst].
    eapply Forall_impl; [|exact Hge]. cbn beta. intros x Hx. lra. }
  assert (H2 : part_elements (insert_notes (32 + 32 + 64) snew (insert_notes 0 new base))
               = (0, PInstrument Sitar) :: shift 0 new ++ shift (32 + 32 + 64) snew).
  { rewrite (insert_notes_at_end (32 + 32 + 64) snew _ Hsord).
    - rewrite H1. reflexivity.
    - rewrite H1. constructor.
      + cbn [fst]. eapply Forall_impl; [|exact Hsge]. cbn beta. intros x Hx. lra.
      + unfold shift. apply Forall_forall. intros y Hy.
        apply in_map_iff in Hy. destruct Hy as (z & <- & Hz). cbn [fst].
        rewrite Forall_forall in Halaap_range. destruct (Halaap_range z Hz) as [_ Hz32].
        eapply Forall_impl; [|exact Hsge]. cbn beta. intros x Hx.
        rewrite Qred_correct. lra. }
  eexists. exists (mkPart None ((0, PInstrument Sitar)
                                  :: map (fun x => (fst x, PNote (snd x))) snew)).
  exists g1, g2. eexists. eexists.
  split; [exact Halaap|]. split; [exact Hsynth|]. split; [exact Hbuild|].
  split; [reflexivity|].
  split; [rewrite !insert_notes_id; reflexivity|].
  rewrite Hnew, Hsnew. split; [exact H2|].
  split; [exact Halaap_range|]. split; [exact Hsynth_range|].
  apply Forall_forall. intros x Hx.
  unfold recurse_notes in Hx. rewrite H2 in Hx.
  cbn [flat_map snd app] in Hx. rewrite flat_map_app in Hx.
  apply in_app_iff in Hx. unfold shift in Hx.
  destruct Hx as [Hx|Hx]; apply in_flat_map in Hx;
    destruct Hx as (y & Hy & Hx); apply in_map_iff in Hy;
    destruct Hy as (z & <- & Hz); cbn [snd fst] in Hx;
    destruct Hx as [<-|[]]; cbn [fst]; rewrite Qred_correct.
  - left. rewrite Forall_forall in Halaap_range.
    destruct (Halaap_range z Hz). lra.
  - right. rewrite Forall_forall in Hsynth_range.
    destruct (Hsynth_range z Hz). lra.
Qed.

(** X14.  In the built score the cello voice is the cello marker and
    the fracture texture moved by 32, the guitar voice the guitar
    marker and the riff moved by 64, each fragment whole and in its
    own order; every one of the sixteen measures of the drum voice is
    a copy of the one Keherwa cycle; the voices come in the order
    Sitar, Cello, Guitar, Drums, and the score carries the title and
    the composer. *)
Theorem score_voices_from_fragments :
  forall (fuel : nat) (g : rng),
    exists score (g' g1 : rng) fracture riff bar sitar cello guitar drums,
      build_sahar_e_nau (alaap_fuel 32 + fuel) g = Ok (score, g') /\
      generate_fracture_texture g1 = Ok (fracture, g1) /\
      generate_rock_riff g1 = Ok (riff, g1) /\
      create_keherwa_cycle g1 = Ok (bar, g1) /\
      parts score = [sitar; cello; guitar; drums] /\
      map part_id (parts score)
      = [Some "Sitar"; Some "Cello"; Some "Guitar"; Some "Drums"]%string /\
      part_elements cello
      = (0, PInstrument Violoncello) :: shift 32 (recurse_notes fracture) /\
      part_elements guitar
      = (0, PInstrument ElectricGuitar) :: shift 64 (recurse_notes riff) /\
      flat_map (fun x => match snd x with PMeasure m => [m] | _ => [] end)
               (part_elements drums)
      = repeat bar 16 /\
      List.length (recurse_notes drums) = (16 * 8)%nat /\
      metadata score
      = Some (mkMetadata "Sahar-e-Nau: Symphony of the Awakening"
                         "Faiz Fusion Project").
Proof.
  intros fuel g.
  destruct (generate_alaap_runs 32 fuel g) as (new & e & g1 & Halaap & _).
  destruct (synthesis_runs g1) as (synth & g2 & Hsynth & _).
  destruct (build_runs _ _ _ _ _ _ Halaap Hsynth)
    as (drone & fracture & riff & bar & cello & guitar & drums
        & _ & Hfracture & Hriff & Hbar & Hbuild
        & Hcid & Hcello & Hgid & Hguitar & Hdid & Hdrums & _).
  eexists. exists g2, g1, fracture, riff, bar. eexists. exists cello, guitar, drums.
  split; [exact Hbuild|].
  do 3 (split; [assumption|]).
  split; [reflexivity|].
  split.
  { cbn [parts score_elements flat_map snd app map].
    rewrite !insert_notes_id, Hcid, Hgid, Hdid. reflexivity. }
  split; [exact Hcello|]. split; [exact Hguitar|].
  split; [rewrite Hdrums; reflexivity|].
  split; [|reflexivity].
  destruct drums as [did dels]. cbn [part_elements] in Hdrums. subst dels.
  rewrite (recurse_notes_measures did (0, UnpitchedPercussion)
             (64, UnpitchedPercussion)).
  vm_compute in Hbar. injection Hbar as <-. reflexivity.
Qed.


End Voices.

(** ** The letter names of the scale *)

Section ScaleLetters.
Local Open Scope Z_scope.





End ScaleLetters.

